(** * lfs-test-server: the lock and metadata store (meta_store.go)

    A shallow embedding of [MetaStore] and of the part of the embedded
    key/value engine it relies on, followed by the properties of the
    store: the order embedding of lock keys, the behaviour of
    [authenticate], [Put]/[Get], [LockAdd], [LockDelete] and [LockList],
    and the invariants linking the two lock buckets.

    Conventions.
    - Go [string] and [[]byte] are both [string] (a sequence of 8-bit
      characters); [uint64] and [int] are [Z], with the wrap-around of
      [uint64] arithmetic written out.
    - A Go result [(value, err)] is a pair of options; [None] is [nil].
    - The database handle held by a [MetaStore] is the value [bolt.DB];
      every method takes the database and returns the new one. *)

From Stdlib Require Import ZArith Lia Ascii.
From stdpp Require Import gmap strings list fin_maps sorting.
Local Open Scope Z_scope.

(** ** Machine integers and byte strings *)

Definition two64 : Z := 18446744073709551616.

(** Conversion to [uint64]: arithmetic modulo 2^64. *)
Definition uint64 (z : Z) : Z := z mod two64.

(** Conversion to [byte]: the low eight bits. *)
Definition byte (z : Z) : ascii := ascii_of_N (Z.to_N (z mod 256)).

Definition len (s : string) : Z := Z.of_nat (String.length s).

(** [binary.BigEndian.PutUint64] on a fresh 8-byte slice. *)
Definition PutUint64 (v : Z) : string :=
  String (byte (v ≫ 56)) (String (byte (v ≫ 48))
  (String (byte (v ≫ 40)) (String (byte (v ≫ 32))
  (String (byte (v ≫ 24)) (String (byte (v ≫ 16))
  (String (byte (v ≫ 8)) (String (byte v) EmptyString))))))).

(** [itob] returns an 8-byte big endian representation of [v]. *)
Definition itob (v : Z) : string := PutUint64 v.

Global Arguments itob : simpl never.
Global Arguments uint64 : simpl never.
Global Arguments len : simpl never.

(** The number a byte string denotes when read big endian. *)
Fixpoint be_value (s : string) : Z :=
  match s with
  | EmptyString => 0
  | String c s' =>
      Z.of_N (N_of_ascii c) * 256 ^ Z.of_nat (String.length s') + be_value s'
  end.

(** [bytes.Compare(a, b) < 0], the order of keys inside a bucket. *)
Definition bytes_lt (a b : string) : Prop := String.ltb a b = true.

(** ** The [strings] functions used by [authenticate] *)

Definition strings_HasPrefix (s pre : string) : bool := String.prefix pre s.

Definition strings_TrimPrefix (s pre : string) : string :=
  if strings_HasPrefix s pre
  then String.substring (String.length pre)
         (String.length s - String.length pre) s
  else s.

(** Index of the first [c] in [s], or [-1]. *)
Fixpoint strings_IndexByte (s : string) (c : ascii) : Z :=
  match s with
  | EmptyString => -1
  | String a s' =>
      if Ascii.eqb a c then 0
      else let i := strings_IndexByte s' c in
           if i <? 0 then -1 else i + 1
  end.

(** The slices [s[:i]] and [s[i:]]. *)
Definition slice_to (s : string) (i : Z) : string :=
  String.substring 0 (Z.to_nat i) s.
Definition slice_from (s : string) (i : Z) : string :=
  String.substring (Z.to_nat i) (String.length s - Z.to_nat i) s.

(** ** Errors *)

Inductive error : Type :=
  | errNoBucket
  | errObjectNotFound
  | errDuplicateObject
  | errUnauthorized
  | authError            (* newAuthError() *)
  | ErrKeyRequired       (* bolt *)
  | ErrKeyTooLarge       (* bolt *)
  | ErrValueTooLarge     (* bolt *)
  | errDecode.           (* a gob decoding failure *)

Global Instance error_eq_dec : EqDecision error.
Proof. solve_decision. Defined.

(** A Go [(value, error)] pair. *)
Definition result (A : Type) : Type := (option A * option error)%type.

(** ** The embedded key/value engine

    What [meta_store.go] uses of boltdb: named buckets holding byte
    strings under byte-string keys in ascending key order, a 64-bit
    sequence per bucket, cursors, and transactions that either commit
    or leave the database as it was. *)
Module bolt.

Definition MaxKeySize : Z := 32768.
Definition MaxValueSize : Z := 2147483646.

Record Bucket : Type := mkBucket {
  data : gmap string string;
  sequence : Z
}.

Definition emptyBucket : Bucket := mkBucket ∅ 0.

Inductive BucketName : Type :=
  | usersBucket | objectsBucket | locksBucket | lockPathsBucket.

Record DB : Type := mkDB {
  users : option Bucket;
  objects : option Bucket;
  locks : option Bucket;
  lockPaths : option Bucket
}.

Definition bucket (n : BucketName) (db : DB) : option Bucket :=
  match n with
  | usersBucket => users db
  | objectsBucket => objects db
  | locksBucket => locks db
  | lockPathsBucket => lockPaths db
  end.

Definition set_bucket (n : BucketName) (b : Bucket) (db : DB) : DB :=
  match n with
  | usersBucket => mkDB (Some b) (objects db) (locks db) (lockPaths db)
  | objectsBucket => mkDB (users db) (Some b) (locks db) (lockPaths db)
  | locksBucket => mkDB (users db) (objects db) (Some b) (lockPaths db)
  | lockPathsBucket => mkDB (users db) (objects db) (locks db) (Some b)
  end.

(** The body of a transaction: it reads and writes the transaction's
    view of the database and may stop with an error. *)
Definition Tx (A : Type) : Type := DB → error + (A * DB).

Definition fail {A : Type} (e : error) : Tx A := λ _, inl e.

Global Instance Tx_ret : MRet Tx := λ A a db, inr (a, db).
Global Instance Tx_bind : MBind Tx := λ A B k m db,
  match m db with
  | inl e => inl e
  | inr (a, db') => k a db'
  end.

(** [tx.Bucket(name)]: the bucket, or [nil]. The handle is the name;
    the bucket is read from the transaction at each use. *)
Definition Tx_Bucket (n : BucketName) : Tx (option BucketName) := λ db,
  inr (match bucket n db with Some _ => Some n | None => None end, db).

(** [b.Get(key)]: the value, or [nil]. *)
Definition Get (b : BucketName) (key : string) : Tx (option string) := λ db,
  inr (match bucket b db with Some bk => data bk !! key | None => None end, db).

(** [b.Put(key, value)]: the engine takes no empty key, no key above
    [MaxKeySize] bytes and no value above [MaxValueSize] bytes. *)
Definition Put (b : BucketName) (key value : string) : Tx unit := λ db,
  if len key =? 0 then inl ErrKeyRequired
  else if MaxKeySize <? len key then inl ErrKeyTooLarge
  else if MaxValueSize <? len value then inl ErrValueTooLarge
  else match bucket b db with
       | Some bk =>
           inr (tt, set_bucket b (mkBucket (<[key:=value]> (data bk)) (sequence bk)) db)
       | None => inr (tt, db)
       end.

(** [b.Delete(key)]: removing an absent key is not an error. *)
Definition Delete (b : BucketName) (key : string) : Tx unit := λ db,
  match bucket b db with
  | Some bk =>
      inr (tt, set_bucket b (mkBucket (delete key (data bk)) (sequence bk)) db)
  | None => inr (tt, db)
  end.

(** [b.NextSequence()]: [b.bucket.sequence++] on a [uint64], with no
    check for overflow, and the new value returned. *)
Definition NextSequence (b : BucketName) : Tx Z := λ db,
  match bucket b db with
  | Some bk =>
      let s := uint64 (sequence bk + 1) in
      inr (s, set_bucket b (mkBucket (data bk) s) db)
  | None => inr (0, db)
  end.

Definition key_le (x y : string * string) : Prop := String.le x.1 y.1.
Definition key_lt (x y : string * string) : Prop := key_le x y ∧ x.1 ≠ y.1.

(** The key/value pairs of a bucket in ascending key order. *)
Definition entries (bk : Bucket) : list (string * string) :=
  merge_sort key_le (map_to_list (data bk)).

(** [c.Seek(seek)] on [b.Cursor()]: the pairs from the first key that
    is not below [seek] onwards. The head is the pair the cursor
    stands on, the tail is what [c.Next()] goes through; the empty
    list is the [nil] key. *)
Definition Cursor_Seek (b : BucketName) (seek : string)
  : Tx (list (string * string)) := λ db,
  inr (match bucket b db with
       | Some bk => filter (λ kv, String.le seek kv.1) (entries bk)
       | None => []
       end, db).

(** [db.Update(fn)]: commit on success, roll back on error. *)
Definition Update {A : Type} (fn : Tx A) (db : DB) : (error + A) * DB :=
  match fn db with
  | inl e => (inl e, db)
  | inr (a, db') => (inr a, db')
  end.

(** [db.View(fn)]: a read-only transaction. *)
Definition View {A : Type} (fn : Tx A) (db : DB) : error + A :=
  match fn db with
  | inl e => inl e
  | inr (a, _) => inr a
  end.

(** [tx.CreateBucketIfNotExists(name)]: the bucket of that name is
    created empty when the database has none; one that exists is left
    as it is. The names of the store are neither empty nor too long,
    the two cases in which the engine refuses. *)
Definition CreateBucketIfNotExists (n : BucketName) : Tx unit := λ db,
  match bucket n db with
  | Some _ => inr (tt, db)
  | None => inr (tt, set_bucket n emptyBucket db)
  end.

(** [b.ForEach(fn)]: [fn] is called on every pair of the bucket in
    ascending key order; the first error [fn] returns ends the
    iteration and is what [ForEach] returns. [s] stands for the
    variables [fn] captures and assigns to. *)
Fixpoint ForEach_loop {S : Type} (fn : string → string → S → S * option error)
    (c : list (string * string)) (s : S) : S * option error :=
  match c with
  | [] => (s, None)
  | (k, v) :: c' =>
      match fn k v s with
      | (s', Some err) => (s', Some err)
      | (s', None) => ForEach_loop fn c' s'
      end
  end.

Definition ForEach {S : Type} (b : BucketName)
    (fn : string → string → S → S * option error) (s : S)
  : Tx (S * option error) := λ db,
  inr (match bucket b db with
       | Some bk => ForEach_loop fn (entries bk) s
       | None => (s, None)
       end, db).

End bolt.

Import bolt.

(** ** The stored records *)

Record MetaLock : Type := mkMetaLock {
  ID : Z;             (* uint64 *)
  Path : string;
  Owner : string;
  LockedAt : string
}.

(** The zero value of [MetaLock], what [var existingMeta MetaLock] holds. *)
Definition zeroMetaLock : MetaLock :=
  mkMetaLock 0 EmptyString EmptyString EmptyString.

(** Modelled from the spec: the declaration of [MetaObject] is not in
    the files at hand; the record is [{oid, size, existing}], where
    [existing] is set on a record handed back by a write that found the
    oid already stored. *)
Record MetaObject : Type := mkMetaObject {
  Oid : string;
  Size : Z;           (* int64 *)
  Existing : bool
}.

(** Modelled from the spec: of [RequestVars], declared elsewhere, the
    store reads the oid, the size and the authorization string. *)
Record RequestVars : Type := mkRequestVars {
  vOid : string;
  vSize : Z;
  vAuthorization : string
}.

(** Modelled from the spec: the configuration consumed by the store is a
    public-mode flag and one static administrator credential. *)
Record Configuration : Type := mkConfiguration {
  IsPublic : bool;
  AdminUser : string;
  AdminPass : string
}.

(** ** What the store takes from its surroundings

    [encoding/gob] is used only through encoding a record and decoding
    it back into a zero-valued variable; the store relies on nothing
    but the round trip. Encoding a record of strings, integers and
    booleans does not fail, so [gob_encode] is total; decoding may
    fail. [base64.StdEncoding.DecodeString] and
    [path.Match] are taken as they come; the flag returned by
    [path_Match] next to the match is [err != nil]. *)
Class Gob (A : Type) : Type := {
  gob_encode : A → string;
  gob_decode : string → option A
}.

Class GobLaws (A : Type) `{Gob A} : Prop := {
  gob_round_trip : ∀ a : A, gob_decode (gob_encode a) = Some a;
  gob_nonempty : ∀ a : A, gob_encode a ≠ EmptyString
}.

Class GoLib : Type := {
  Config : Configuration;
  base64_DecodeString : string → option string;
  path_Match : string → string → bool * bool
}.

(** Modelled from the spec: [checkBasicAuth] is defined outside the
    files at hand; it accepts a credential that was supplied ([ok]) and
    equals the static administrator credential. *)
Definition checkBasicAuth {lib : GoLib} (user pass : string) (ok : bool) : bool :=
  ok && bool_decide (user = AdminUser Config) && bool_decide (pass = AdminPass Config).

(** [string(b)] for a possibly [nil] byte slice, and its length. *)
Definition string_of (b : option string) : string := default EmptyString b.
Definition len_bytes (b : option string) : Z := len (string_of b).
Global Arguments len_bytes : simpl never.

(** ** The metadata store *)
Section MetaStore.
Context {lib : GoLib} {lockGob : Gob MetaLock} {objectGob : Gob MetaObject}.

(** [NewMetaStore] on a new database file: the four buckets, empty. *)
Definition NewMetaStore : DB :=
  mkDB (Some emptyBucket) (Some emptyBucket) (Some emptyBucket) (Some emptyBucket).

(** [authenticate] uses the authorization string to determine whether
    or not to proceed. *)
Definition authenticate (authorization : string) (db : DB) : bool :=
  if IsPublic Config then true
  else if bool_decide (authorization = EmptyString) then false
  else if negb (strings_HasPrefix authorization "Basic ") then false
  else
    match base64_DecodeString (strings_TrimPrefix authorization "Basic ") with
    | None => false
    | Some cs =>
        let i := strings_IndexByte cs ":" in
        if i <? 0 then false
        else
          let user := slice_to cs i in
          let password := slice_from cs (i + 1) in
          if checkBasicAuth user password true then true
          else
            let value :=
              match View (bucket ← Tx_Bucket usersBucket;
                          match bucket with
                          | None => fail errNoBucket
                          | Some bucket =>
                              v ← bolt.Get bucket user; mret (string_of v)
                          end) db with
              | inl _ => EmptyString
              | inr v => v
              end in
            bool_decide (value ≠ EmptyString) && bool_decide (value = password)
    end.

(** [UnsafeGet] retrieves the record of an object without checking
    authentication. *)
Definition UnsafeGet (v : RequestVars) (db : DB) : result MetaObject :=
  match View (bucket ← Tx_Bucket objectsBucket;
              match bucket with
              | None => fail errNoBucket
              | Some bucket =>
                  value ← bolt.Get bucket (vOid v);
                  if len_bytes value =? 0 then fail errObjectNotFound
                  else match gob_decode (string_of value) with
                       | None => fail errDecode
                       | Some meta => mret meta
                       end
              end) db with
  | inl err => (None, Some err)
  | inr meta => (Some meta, None)
  end.

Definition Get (v : RequestVars) (db : DB) : result MetaObject :=
  if negb (authenticate (vAuthorization v) db) then (None, Some authError)
  else UnsafeGet v db.

(** [Put] writes the record of an object to the store. *)
Definition Put (v : RequestVars) (db : DB) : result MetaObject * DB :=
  if negb (authenticate (vAuthorization v) db) then ((None, Some authError), db)
  else
    match Get v db with
    | (Some meta, None) =>
        ((Some (mkMetaObject (Oid meta) (Size meta) true), None), db)
    | _ =>
        let meta := mkMetaObject (vOid v) (vSize v) false in
        let buf := gob_encode meta in
        match Update (bucket ← Tx_Bucket objectsBucket;
                      match bucket with
                      | None => fail errNoBucket
                      | Some bucket => bolt.Put bucket (vOid v) buf
                      end) db with
        | (inl err, db') => ((None, Some err), db')
        | (inr _, db') => ((Some meta, None), db')
        end
    end.

(** [AddUser] adds user credentials to the store. *)
Definition AddUser (user pass : string) (db : DB) : option error * DB :=
  match Update (bucket ← Tx_Bucket usersBucket;
                match bucket with
                | None => fail errNoBucket
                | Some bucket => bolt.Put bucket user pass
                end) db with
  | (inl err, db') => (Some err, db')
  | (inr _, db') => (None, db')
  end.

(** [LockAdd] adds a lock for a given filename with a given owner.
    [now] is what [time.Now().String()] returns during the call. The
    captured [existingMeta] is assigned as the last step of the
    transaction, so after a failed transaction it still holds the
    zero value. *)
Definition LockAdd (filepath owner now : string) (db : DB)
  : result MetaLock * DB :=
  match Update (pb ← Tx_Bucket lockPathsBucket;
                match pb with
                | None => fail errNoBucket
                | Some pb =>
                    value ← bolt.Get pb filepath;
                    if negb (len_bytes value =? 0) then fail errDuplicateObject
                    else
                      id ← NextSequence pb;
                      let meta := mkMetaLock id filepath owner now in
                      let bufBytes := gob_encode meta in
                      lb ← Tx_Bucket locksBucket;
                      match lb with
                      | None => fail errNoBucket
                      | Some lb =>
                          bolt.Put lb (itob id) bufBytes;;
                          bolt.Put pb filepath bufBytes;;
                          mret meta
                      end
                end) db with
  | (inl err, db') =>
      if bool_decide (err = errDuplicateObject)
      then ((Some zeroMetaLock, Some err), db')
      else ((None, Some err), db')
  | (inr existingMeta, db') => ((Some existingMeta, None), db')
  end.

(** [LockDelete] deletes a stored lock given its id, if it is owned by
    the given user or if [force] is true. *)
Definition LockDelete (id : Z) (owner : string) (force : bool) (db : DB)
  : result MetaLock * DB :=
  match Update (lb ← Tx_Bucket locksBucket;
                match lb with
                | None => fail errNoBucket
                | Some lb =>
                    let idBytes := itob id in
                    value ← bolt.Get lb idBytes;
                    if len_bytes value =? 0 then fail errObjectNotFound
                    else
                      match gob_decode (string_of value) with
                      | None => fail errDecode
                      | Some meta =>
                          if negb force && bool_decide (owner ≠ Owner meta)
                          then fail errUnauthorized
                          else
                            bolt.Delete lb idBytes;;
                            pb ← Tx_Bucket lockPathsBucket;
                            match pb with
                            | None => fail errNoBucket
                            | Some pb =>
                                bolt.Delete pb (Path meta);;
                                mret meta
                            end
                      end
                end) db with
  | (inl err, db') => ((None, Some err), db')
  | (inr meta, db') => ((Some meta, None), db')
  end.

(** Whether the loop of [LockList] keeps an entry: no pattern, or a
    match reported without error. *)
Definition keeps (matchpath : string) (meta : MetaLock) : bool :=
  if bool_decide (matchpath ≠ EmptyString)
  then let '(matched, err) := path_Match matchpath (Path meta) in
       negb (err || negb matched)
  else true.

(** The [for] loop of [LockList] over the cursor [c]. It returns the
    locks collected and whether the loop ended on a key that is not
    [nil]. *)
Fixpoint LockList_loop (matchpath : string) (c : list (string * string))
    (limit : Z) (locks : list MetaLock) : error + (list MetaLock * bool) :=
  match c with
  | [] => inr (locks, false)
  | (k, v) :: c' =>
      if 0 <? limit then
        match gob_decode v with
        | None => inl errDecode
        | Some meta =>
            if keeps matchpath meta
            then LockList_loop matchpath c' (limit - 1) (locks ++ [meta])
            else LockList_loop matchpath c' limit locks
        end
      else inr (locks, true)
  end.

(** [LockList] returns a list of locks, filtering by the pattern in
    [matchpath], with a cursor and limit. *)
Definition LockList (matchpath : string) (cursor limit : Z) (db : DB)
  : list MetaLock * Z * bool * option error :=
  let limit := if limit <? 1 then 1 else if 100 <? limit then 100 else limit in
  match View (lb ← Tx_Bucket locksBucket;
              match lb with
              | None => fail errNoBucket
              | Some lb =>
                  c ← Cursor_Seek lb (itob cursor);
                  match LockList_loop matchpath c limit [] with
                  | inl err => fail err
                  | inr (locks, k_not_nil) => mret (locks, k_not_nil)
                  end
              end) db with
  | inl err => ([], 0, false, Some err)
  | inr (locks, pending) =>
      let cursor :=
        if pending && bool_decide (0 < length locks)%nat
        then uint64 (ID (List.last locks zeroMetaLock) + 1)
        else cursor in
      (locks, cursor, pending, None)
  end.

(** *** Sequences of lock calls *)

Inductive LockOp : Type :=
  | OpLockAdd (filepath owner now : string)
  | OpLockDelete (id : Z) (owner : string) (force : bool).

Definition apply_op (o : LockOp) (db : DB) : result MetaLock * DB :=
  match o with
  | OpLockAdd filepath owner now => LockAdd filepath owner now db
  | OpLockDelete id owner force => LockDelete id owner force db
  end.

(** The calls of [ops] made one after the other on one store: the log
    of each call with what it returned, and the database at the end. *)
Fixpoint run (ops : list LockOp) (db : DB)
  : list (LockOp * result MetaLock) * DB :=
  match ops with
  | [] => ([], db)
  | o :: ops' =>
      let '(r, db') := apply_op o db in
      let '(log, db'') := run ops' db' in
      ((o, r) :: log, db'')
  end.

(** The id a logged call assigned: that of the lock a [LockAdd]
    created. *)
Definition assigned_id (e : LockOp * result MetaLock) : option Z :=
  match e with
  | (OpLockAdd _ _ _, (Some meta, None)) => Some (ID meta)
  | _ => None
  end.

Definition assigned_ids (log : list (LockOp * result MetaLock)) : list Z :=
  omap assigned_id log.

(** *** The state of the lock buckets *)

(** [meta] is stored in the id-indexed bucket, under its id. *)
Definition in_locks (db : DB) (meta : MetaLock) : Prop :=
  ∃ lb, locks db = Some lb ∧ data lb !! itob (ID meta) = Some (gob_encode meta).

(** [meta] is stored in the path-indexed bucket, under its path. *)
Definition in_lockPaths (db : DB) (meta : MetaLock) : Prop :=
  ∃ pb, lockPaths db = Some pb ∧ data pb !! Path meta = Some (gob_encode meta).

(** A pair that is a lock stored under its own id. *)
Definition lock_pair (kv : string * string) : Prop :=
  ∃ meta, kv.1 = itob (ID meta) ∧ kv.2 = gob_encode meta ∧ 0 ≤ ID meta < two64.

(** Every pair of the id-indexed bucket is a lock under its own key. *)
Definition locks_well_formed (db : DB) : Prop :=
  ∃ lb pb, locks db = Some lb ∧ lockPaths db = Some pb ∧
    ∀ k v, data lb !! k = Some v →
      ∃ meta, k = itob (ID meta) ∧ v = gob_encode meta ∧ 0 ≤ ID meta < two64.

(** The two lock buckets hold the same locks: each pair of either
    bucket is a lock stored under its id, respectively its path, and
    that lock is in the other bucket too; and no two locks of the
    store have the same path. *)
Record locks_in_sync (db : DB) : Prop := {
  sync_by_id : ∀ lb k v, locks db = Some lb → data lb !! k = Some v →
    ∃ meta, k = itob (ID meta) ∧ v = gob_encode meta ∧ in_lockPaths db meta;
  sync_by_path : ∀ pb k v, lockPaths db = Some pb → data pb !! k = Some v →
    ∃ meta, k = Path meta ∧ v = gob_encode meta ∧ in_locks db meta;
  sync_iff : ∀ meta, in_locks db meta ↔ in_lockPaths db meta;
  sync_one_per_path : ∀ m1 m2,
    in_locks db m1 → in_locks db m2 → Path m1 = Path m2 → m1 = m2
}.

(** What is kept while the sequence of the path bucket has not wrapped:
    the buckets mirror each other and every id in use lies in
    [1 .. sequence]. *)
Definition store_inv (db : DB) : Prop :=
  ∃ lb pb, locks db = Some lb ∧ lockPaths db = Some pb ∧
    0 ≤ sequence pb < two64 ∧
    (∀ k v, data lb !! k = Some v →
       ∃ meta, k = itob (ID meta) ∧ v = gob_encode meta ∧
               1 ≤ ID meta ≤ sequence pb ∧ data pb !! Path meta = Some v) ∧
    (∀ k v, data pb !! k = Some v →
       ∃ meta, k = Path meta ∧ v = gob_encode meta ∧
               1 ≤ ID meta ≤ sequence pb ∧ data lb !! itob (ID meta) = Some v).

(** *** [LockList] in the words of its description *)

(** The limit clamped to [1 .. 100]. *)
Definition clamp_limit (limit : Z) : Z := Z.max 1 (Z.min 100 limit).

(** An entry is accepted when the pattern is empty or the path of the
    entry glob-matches it. *)
Definition accepted (matchpath : string) (meta : MetaLock) : Prop :=
  matchpath = EmptyString ∨ path_Match matchpath (Path meta) = (true, false).

Global Instance accepted_dec matchpath meta : Decision (accepted matchpath meta).
Proof. unfold accepted. apply _. Defined.

(** [l] lists, by ascending id, the locks of the store with an id of
    at least [cursor]. *)
Definition listed_from (db : DB) (cursor : Z) (l : list MetaLock) : Prop :=
  StronglySorted (λ a b, ID a < ID b) l ∧
  ∀ meta, meta ∈ l ↔ in_locks db meta ∧ cursor ≤ ID meta.

(** The locks a cursor placed at [cursor] goes through. *)
Definition locks_from (db : DB) (cursor : Z) : list MetaLock :=
  match locks db with
  | Some lb =>
      omap (λ kv, gob_decode kv.2)
        (filter (λ kv, String.le (itob cursor) kv.1) (entries lb))
  | None => []
  end.

(** What the id-indexed bucket holds under an id, and the sequence of
    the path-indexed bucket, from which ids are drawn. *)
Definition stored_lock (db : DB) (id : Z) : option string :=
  lb ← locks db; data lb !! itob id.

Definition lock_sequence (db : DB) : Z :=
  match lockPaths db with
  | Some pb => sequence pb
  | None => 0
  end.

(** The secret stored for a user, and the record stored for an oid. *)
Definition stored_secret (db : DB) (user : string) : option string :=
  b ← users db; data b !! user.

Definition stored_object (db : DB) (oid : string) : option string :=
  b ← objects db; data b !! oid.

(** *** Opening, deleting and listing *)

(** A database file that [bolt.Open] has just created holds no bucket. *)
Definition newFile : DB := mkDB None None None None.

(** [NewMetaStore] on the database file [dbFile], new or not: the
    update creates the buckets that are missing; what it returns is
    not looked at. *)
Definition NewMetaStore_at (dbFile : DB) : DB :=
  (Update (CreateBucketIfNotExists usersBucket;;
           CreateBucketIfNotExists objectsBucket;;
           CreateBucketIfNotExists locksBucket;;
           CreateBucketIfNotExists lockPathsBucket;;
           mret tt) dbFile).2.

(** [Delete] removes the record of an object from the store. *)
Definition Delete (v : RequestVars) (db : DB) : option error * DB :=
  if negb (authenticate (vAuthorization v) db) then (Some authError, db)
  else
    match Update (bucket ← Tx_Bucket objectsBucket;
                  match bucket with
                  | None => fail errNoBucket
                  | Some bucket => bolt.Delete bucket (vOid v)
                  end) db with
    | (inl err, db') => (Some err, db')
    | (inr _, db') => (None, db')
    end.

(** [DeleteUser] removes user credentials from the store. *)
Definition DeleteUser (user : string) (db : DB) : option error * DB :=
  match Update (bucket ← Tx_Bucket usersBucket;
                match bucket with
                | None => fail errNoBucket
                | Some bucket => bolt.Delete bucket user
                end) db with
  | (inl err, db') => (Some err, db')
  | (inr _, db') => (None, db')
  end.

Record MetaUser : Type := mkMetaUser { Name : string }.

(** [Users] returns all users of the store. [users] is the slice the
    callback appends to; what [ForEach] returns is not looked at. *)
Definition Users (db : DB) : list MetaUser * option error :=
  match View (bucket ← Tx_Bucket usersBucket;
              match bucket with
              | None => fail errNoBucket
              | Some bucket =>
                  '(users, _) ← ForEach bucket
                    (λ k v users, (users ++ [mkMetaUser k], None)) [];
                  mret users
              end) db with
  | inl err => ([], Some err)
  | inr users => (users, None)
  end.

(** The callback of [Objects]: it decodes the value and appends the
    record, or returns the error of the decoder. *)
Definition Objects_fn (k v : string) (objects : list MetaObject)
  : list MetaObject * option error :=
  match gob_decode v with
  | None => (objects, Some errDecode)
  | Some meta => (objects ++ [meta], None)
  end.

(** [Objects] returns all object records of the store. What [ForEach]
    returns, the error of the callback included, is not looked at:
    the transaction ends with [return nil]. *)
Definition Objects (db : DB) : list MetaObject * option error :=
  match View (bucket ← Tx_Bucket objectsBucket;
              match bucket with
              | None => fail errNoBucket
              | Some bucket =>
                  '(objects, _) ← ForEach bucket Objects_fn [];
                  mret objects
              end) db with
  | inl err => ([], Some err)
  | inr objects => (objects, None)
  end.

(** *** Calls of the store

    One call of the store, with the error it returns and the database
    it leaves. *)
Inductive Call : Type :=
  | CallGet (v : RequestVars)
  | CallPut (v : RequestVars)
  | CallDelete (v : RequestVars)
  | CallAddUser (user pass : string)
  | CallDeleteUser (user : string)
  | CallUsers
  | CallObjects
  | CallLockAdd (filepath owner now : string)
  | CallLockDelete (id : Z) (owner : string) (force : bool)
  | CallLockList (matchpath : string) (cursor limit : Z).

Definition call (c : Call) (db : DB) : option error * DB :=
  match c with
  | CallGet v => ((Get v db).2, db)
  | CallPut v => let '(r, db') := Put v db in (r.2, db')
  | CallDelete v => Delete v db
  | CallAddUser user pass => AddUser user pass db
  | CallDeleteUser user => DeleteUser user db
  | CallUsers => ((Users db).2, db)
  | CallObjects => ((Objects db).2, db)
  | CallLockAdd filepath owner now =>
      let '(r, db') := LockAdd filepath owner now db in (r.2, db')
  | CallLockDelete id owner force =>
      let '(r, db') := LockDelete id owner force db in (r.2, db')
  | CallLockList matchpath cursor limit =>
      ((LockList matchpath cursor limit db).2, db)
  end.

Fixpoint calls (cs : list Call) (db : DB) : DB :=
  match cs with
  | [] => db
  | c :: cs' => calls cs' (call c db).2
  end.

(** The four buckets are there. *)
Definition has_buckets (db : DB) : Prop :=
  is_Some (users db) ∧ is_Some (objects db) ∧
  is_Some (locks db) ∧ is_Some (lockPaths db).

(** Every value of the object bucket is an encoded record. *)
Definition objects_well_formed (db : DB) : Prop :=
  ∃ ob, objects db = Some ob ∧
    ∀ k v, data ob !! k = Some v → ∃ meta : MetaObject, v = gob_encode meta.

(** Every pair of the object bucket is a record as [Put] writes it,
    stored under its oid. *)
Definition objects_inv (db : DB) : Prop :=
  ∃ ob, objects db = Some ob ∧
    ∀ k v, data ob !! k = Some v →
      ∃ size, v = gob_encode (mkMetaObject k size false).

End MetaStore.

(** ** The helpers of the lock handlers (locks.go) *)

(** [json.Marshal] on a string is taken as it comes, [None] standing
    for an error. *)
Class GoJson : Type := { json_Marshal : string → option string }.

Definition jsonString {json : GoJson} (s : string) : string :=
  match json_Marshal s with
  | None => EmptyString
  | Some os => os
  end.

(** The verb [%x] of [fmt] on a [uint64]: the digits are written from
    the last one backwards while the number is 16 or more, then the
    leading digit. A [uint64] has at most 16 of them, which bounds the
    loop. *)
Definition ldigits : string := "0123456789abcdef".

Definition digit (d : Z) : ascii :=
  default "0"%char (String.get (Z.to_nat d) ldigits).

Fixpoint fmt_x_loop (fuel : nat) (u : Z) (buf : string) : string :=
  match fuel with
  | O => buf
  | S fuel' =>
      if 16 <=? u
      then fmt_x_loop fuel' (Z.shiftr u 4) (String (digit (Z.land u 15)) buf)
      else String (digit u) buf
  end.

Definition fmt_x (u : Z) : string := fmt_x_loop 16 u EmptyString.

(** [strconv.ParseUint(s, 16, 64)], [None] standing for an error: the
    empty string is refused, as is a byte that is no hexadecimal digit
    in either case, and a number that does not fit 64 bits. With the
    base given there is no prefix and no underscore. *)
Definition lower (c : Z) : Z := Z.lor c 32.

Definition digit_value (c : ascii) : option Z :=
  let c := Z.of_N (N_of_ascii c) in
  if (48 <=? c) && (c <=? 57) then Some (c - 48)
  else if (97 <=? lower c) && (lower c <=? 122) then
    let d := lower c - 97 + 10 in
    if 16 <=? d then None else Some d
  else None.

Definition cutoff : Z := (two64 - 1) / 16 + 1.

Fixpoint ParseUint_loop (s : string) (n : Z) : option Z :=
  match s with
  | EmptyString => Some n
  | String c s' =>
      match digit_value c with
      | None => None
      | Some d =>
          if cutoff <=? n then None
          else
            let n1 := n * 16 + d in
            if two64 <=? n1 then None else ParseUint_loop s' n1
      end
  end.

Definition strconv_ParseUint (s : string) : option Z :=
  if bool_decide (s = EmptyString) then None else ParseUint_loop s 0.

(** The double quote, and a string between two of them. *)
Definition dquote : string := String "034" EmptyString.
Definition quoted (s : string) : string := dquote +:+ s +:+ dquote.

Definition buildLockInfoResponse {json : GoJson} (lock : MetaLock) : string :=
  "{" +:+ quoted "id" +:+ ":" +:+ quoted (fmt_x (ID lock)) +:+
  "," +:+ quoted "path" +:+ ":" +:+ jsonString (Path lock) +:+
  "," +:+ quoted "locked_at" +:+ ":" +:+ jsonString (LockedAt lock) +:+
  "," +:+ quoted "owner" +:+ ":{" +:+ quoted "name" +:+ ":" +:+
  jsonString (Owner lock) +:+ "}}".

(** [buildLocksListJSON]: the loop carries the message and the
    separator, which is empty for the first lock and a comma from then
    on, and writes the separator after the lock. *)
Definition buildLocksListJSON {json : GoJson} (locks : list MetaLock) : string :=
  let '(msg, sep) :=
    fold_left (λ '(msg, sep) l, (msg +:+ buildLockInfoResponse l +:+ sep, ","))
      locks ("[", EmptyString) in
  msg +:+ "]".

(** The loop of [verifyLocksHandler] that sorts the locks of a page
    into those of the user and those of others. *)
Definition ours_theirs (user : string) (locks : list MetaLock)
  : list MetaLock * list MetaLock :=
  fold_left (λ '(ours, theirs) l,
               if bool_decide (Owner l = user)
               then (ours ++ [l], theirs)
               else (ours, theirs ++ [l]))
    locks ([], []).

(** ** A concrete setting for the examples

    The examples need functions to run: a self-delimiting record codec
    in the place of gob, the decoder of standard padded base64, and a
    small glob matcher. *)

(** A string as marked characters closed by a dot. *)
Fixpoint put_string (s rest : string) : string :=
  match s with
  | EmptyString => String "." rest
  | String c s' => String "+" (String c (put_string s' rest))
  end.

Fixpoint get_string (w : string) : option (string * string) :=
  match w with
  | String m w' =>
      if Ascii.eqb m "." then Some (EmptyString, w')
      else if Ascii.eqb m "+" then
        match w' with
        | String c w'' =>
            match get_string w'' with
            | Some (s, rest) => Some (String c s, rest)
            | None => None
            end
        | EmptyString => None
        end
      else None
  | EmptyString => None
  end.

(** A positive number as its binary digits, lowest first, closed by a dot. *)
Fixpoint put_pos (p : positive) (rest : string) : string :=
  match p with
  | xH => String "." rest
  | xO p' => String "0" (put_pos p' rest)
  | xI p' => String "1" (put_pos p' rest)
  end.

Fixpoint get_pos (w : string) : option (positive * string) :=
  match w with
  | String m w' =>
      if Ascii.eqb m "." then Some (xH, w')
      else
        match get_pos w' with
        | Some (p, rest) =>
            if Ascii.eqb m "0" then Some (xO p, rest)
            else if Ascii.eqb m "1" then Some (xI p, rest)
            else None
        | None => None
        end
  | EmptyString => None
  end.

Definition put_Z (z : Z) (rest : string) : string :=
  match z with
  | Z0 => String "z" rest
  | Zpos p => String "p" (put_pos p rest)
  | Zneg p => String "n" (put_pos p rest)
  end.

Definition get_Z (w : string) : option (Z * string) :=
  match w with
  | String m w' =>
      if Ascii.eqb m "z" then Some (0, w')
      else
        match get_pos w' with
        | Some (p, rest) =>
            if Ascii.eqb m "p" then Some (Zpos p, rest)
            else if Ascii.eqb m "n" then Some (Zneg p, rest)
            else None
        | None => None
        end
  | EmptyString => None
  end.

Definition wire_lock : Gob MetaLock := {|
  gob_encode meta :=
    put_Z (ID meta) (put_string (Path meta)
      (put_string (Owner meta) (put_string (LockedAt meta) EmptyString)));
  gob_decode w :=
    match get_Z w with
    | Some (id, w1) =>
        match get_string w1 with
        | Some (p, w2) =>
            match get_string w2 with
            | Some (o, w3) =>
                match get_string w3 with
                | Some (t, EmptyString) => Some (mkMetaLock id p o t)
                | _ => None
                end
            | None => None
            end
        | None => None
        end
    | None => None
    end
|}.

Definition wire_object : Gob MetaObject := {|
  gob_encode meta :=
    put_string (Oid meta)
      (put_Z (Size meta) (String (if Existing meta then "T" else "F") EmptyString));
  gob_decode w :=
    match get_string w with
    | Some (oid, w1) =>
        match get_Z w1 with
        | Some (size, String e EmptyString) =>
            if Ascii.eqb e "T" then Some (mkMetaObject oid size true)
            else if Ascii.eqb e "F" then Some (mkMetaObject oid size false)
            else None
        | _ => None
        end
    | None => None
    end
|}.

(** The value of a character of the standard base64 alphabet. *)
Definition b64_digit (c : ascii) : option Z :=
  let n := Z.of_N (N_of_ascii c) in
  if (65 <=? n) && (n <=? 90) then Some (n - 65)
  else if (97 <=? n) && (n <=? 122) then Some (n - 71)
  else if (48 <=? n) && (n <=? 57) then Some (n + 4)
  else if n =? 43 then Some 62
  else if n =? 47 then Some 63
  else None.

(** Groups of four characters into up to three bytes; ["="] pads the
    last group. *)
Fixpoint b64_groups (s : string) : option string :=
  match s with
  | EmptyString => Some EmptyString
  | String a (String b (String c (String d rest))) =>
      match b64_digit a, b64_digit b with
      | Some x, Some y =>
          let b1 := byte (Z.lor (x ≪ 2) (y ≫ 4)) in
          if Ascii.eqb c "=" && Ascii.eqb d "=" && bool_decide (rest = EmptyString)
          then Some (String b1 EmptyString)
          else
            match b64_digit c with
            | Some z =>
                let b2 := byte (Z.lor (y ≪ 4) (z ≫ 2)) in
                if Ascii.eqb d "=" && bool_decide (rest = EmptyString)
                then Some (String b1 (String b2 EmptyString))
                else
                  match b64_digit d, b64_groups rest with
                  | Some w, Some t =>
                      Some (String b1 (String b2 (String (byte (Z.lor (z ≪ 6) w)) t)))
                  | _, _ => None
                  end
            | None => None
            end
      | _, _ => None
      end
  | _ => None
  end.

(** Line breaks are skipped by the decoder. *)
Fixpoint drop_newlines (s : string) : string :=
  match s with
  | EmptyString => EmptyString
  | String c s' =>
      if Ascii.eqb c "010" || Ascii.eqb c "013" then drop_newlines s'
      else String c (drop_newlines s')
  end.

Definition b64_decode (s : string) : option string := b64_groups (drop_newlines s).

(** A matcher for patterns made of literal characters, ["?"] and ["*"],
    neither of which matches ["/"]. Character classes are not read: a
    pattern with an opening bracket is reported as malformed, as an
    unclosed class is. *)
Fixpoint glob (pattern name : string) : bool :=
  match pattern with
  | EmptyString => bool_decide (name = EmptyString)
  | String p pattern' =>
      if Ascii.eqb p "*" then
        (fix star (name : string) : bool :=
           glob pattern' name ||
           match name with
           | EmptyString => false
           | String c name' => negb (Ascii.eqb c "/") && star name'
           end) name
      else
        match name with
        | EmptyString => false
        | String c name' =>
            (if Ascii.eqb p "?" then negb (Ascii.eqb c "/") else Ascii.eqb p c)
            && glob pattern' name'
        end
  end.

Definition glob_Match (pattern name : string) : bool * bool :=
  if bool_decide (0 ≤ strings_IndexByte pattern "[") then (false, true)
  else (glob pattern name, false).

(** A store that is not public, with administrator [admin]/[secret]. *)
Definition exampleLib : GoLib := {|
  Config := mkConfiguration false "admin" "secret";
  base64_DecodeString := b64_decode;
  path_Match := glob_Match
|}.

(** [n] rounds of taking and releasing a lock on one path, on a store
    whose sequence stands at [s]. *)
Fixpoint churn (s : Z) (n : nat) : list LockOp :=
  match n with
  | O => []
  | S n' =>
      OpLockAdd "/tmp" "carol" "t" :: OpLockDelete (s + 1) "carol" false
        :: churn (s + 1) n'
  end.

Definition churn_rounds : nat := Z.to_nat (two64 - 2).

(** A lock is taken on ["/a"]; locks are taken and released until the
    sequence has gone through all of [uint64]; then locks are taken on
    ["/b"] and ["/c"]. *)
Definition wrap_ops : list LockOp :=
  OpLockAdd "/a" "alice" "t" :: churn 1 churn_rounds
    ++ [OpLockAdd "/b" "bob" "t"; OpLockAdd "/c" "carol" "t"].

Definition lockA : MetaLock := mkMetaLock 1 "/a" "alice" "t".
Definition lockB : MetaLock := mkMetaLock 0 "/b" "bob" "t".
Definition lockC : MetaLock := mkMetaLock 1 "/c" "carol" "t".

(** The store after the first call of [wrap_ops], after the rounds,
    after the call on ["/b"] and at the end. *)
Definition wrap_store (locks lockPaths : gmap string string) (s : Z) : DB :=
  mkDB (Some emptyBucket) (Some emptyBucket)
    (Some (mkBucket locks 0)) (Some (mkBucket lockPaths s)).

Definition wrap_store1 : DB :=
  wrap_store (<[itob 1 := gob_encode (Gob:=wire_lock) lockA]> ∅)
    (<["/a" := gob_encode (Gob:=wire_lock) lockA]> ∅) 1.

Definition wrap_store2 : DB :=
  wrap_store (<[itob 1 := gob_encode (Gob:=wire_lock) lockA]> ∅)
    (<["/a" := gob_encode (Gob:=wire_lock) lockA]> ∅) 18446744073709551615.

Definition wrap_store3 : DB :=
  wrap_store
    (<[itob 0 := gob_encode (Gob:=wire_lock) lockB]>
       (<[itob 1 := gob_encode (Gob:=wire_lock) lockA]> ∅))
    (<["/b" := gob_encode (Gob:=wire_lock) lockB]>
       (<["/a" := gob_encode (Gob:=wire_lock) lockA]> ∅)) 0.

Definition wrap_store4 : DB :=
  wrap_store
    (<[itob 1 := gob_encode (Gob:=wire_lock) lockC]>
       (<[itob 0 := gob_encode (Gob:=wire_lock) lockB]>
          (<[itob 1 := gob_encode (Gob:=wire_lock) lockA]> ∅)))
    (<["/c" := gob_encode (Gob:=wire_lock) lockC]>
       (<["/b" := gob_encode (Gob:=wire_lock) lockB]>
          (<["/a" := gob_encode (Gob:=wire_lock) lockA]> ∅))) 1.

(** A store with two locks, and a store with a user whose secret is
    empty. *)
Definition two_locks : DB :=
  (run (lockGob:=wire_lock)
     [OpLockAdd "/a/x" "alice" "t1"; OpLockAdd "/b/y" "bob" "t2"] NewMetaStore).2.

Definition bob_without_secret : DB := (AddUser "bob" EmptyString NewMetaStore).2.

(** A store with a user, a store with two objects, and a store in
    which the value of the second oid is not an encoded record. *)
Definition with_bob : DB := (AddUser "bob" "pw" NewMetaStore).2.

Definition two_objects : DB :=
  calls (lib:=exampleLib) (lockGob:=wire_lock) (objectGob:=wire_object)
    [CallPut (mkRequestVars "oid1" 42 "Basic YWRtaW46c2VjcmV0");
     CallPut (mkRequestVars "oid2" 7 "Basic YWRtaW46c2VjcmV0")] NewMetaStore.

Definition damaged_objects : DB :=
  mkDB (Some emptyBucket)
    (Some (mkBucket
       (<["a" := gob_encode (Gob:=wire_object) (mkMetaObject "a" 1 false)]>
          (<["b" := "?"]>
             (<["c" := gob_encode (Gob:=wire_object) (mkMetaObject "c" 3 false)]>
                ∅))) 0))
    (Some emptyBucket) (Some emptyBucket).

Example b64_decode_admin : b64_decode "YWRtaW46c2VjcmV0" = Some "admin:secret".
Proof. reflexivity. Qed.

Example b64_decode_bob : b64_decode "Ym9iOg==" = Some "bob:".
Proof. reflexivity. Qed.

Example glob_dir : glob_Match "/a/*" "/a/x" = (true, false)
  ∧ glob_Match "/a/*" "/b/y" = (false, false)
  ∧ glob_Match "[" "/a/x" = (false, true).
Proof. repeat split. Qed.

(** * Properties *)

(** ** Lock keys: [itob] embeds the order of ids *)

Lemma byte_value z : Z.of_N (N_of_ascii (byte z)) = z mod 256.
Proof.
  assert (0 ≤ z mod 256 < 256) by (apply Z.mod_pos_bound; lia).
  unfold byte. rewrite N_ascii_embedding; lia.
Qed.

Lemma ascii_value_bound c : 0 ≤ Z.of_N (N_of_ascii c) < 256.
Proof. pose proof (N_ascii_bounded c). lia. Qed.

Lemma be_value_bound s : 0 ≤ be_value s < 256 ^ Z.of_nat (String.length s).
Proof.
  induction s as [|c s IH]; cbn [be_value String.length]; [simpl; lia|].
  pose proof (ascii_value_bound c).
  rewrite Nat2Z.inj_succ, Z.pow_succ_r by lia. nia.
Qed.

Lemma be_value_itob v : 0 ≤ v < two64 → be_value (itob v) = v.
Proof.
  intros Hv. unfold itob, PutUint64. cbn [be_value String.length].
  rewrite !byte_value, !Z.shiftr_div_pow2 by lia.
  unfold two64 in Hv. simpl Z.of_nat. Z.div_mod_to_equations. lia.
Qed.

Lemma compare_be_value s1 s2 :
  String.length s1 = String.length s2 →
  String.compare s1 s2 = (be_value s1 ?= be_value s2).
Proof.
  revert s2. induction s1 as [|c1 s1 IH]; intros [|c2 s2] Hlen;
    simplify_eq/=; [done|].
  pose proof (be_value_bound s1). pose proof (be_value_bound s2).
  rewrite <- Hlen in *. set (w := 256 ^ Z.of_nat (String.length s1)) in *.
  unfold Ascii.compare. rewrite <- N2Z.inj_compare.
  destruct (Z.compare_spec (Z.of_N (N_of_ascii c1)) (Z.of_N (N_of_ascii c2)))
    as [Heq|Hlt|Hgt].
  - rewrite IH, Heq by done.
    destruct (Z.compare_spec (be_value s1) (be_value s2)); symmetry;
      [apply Z.compare_eq_iff|apply Z.compare_lt_iff|apply Z.compare_gt_iff]; lia.
  - symmetry. apply Z.compare_lt_iff. nia.
  - symmetry. apply Z.compare_gt_iff. nia.
Qed.

Lemma itob_compare u v :
  0 ≤ u < two64 → 0 ≤ v < two64 → String.compare (itob u) (itob v) = (u ?= v).
Proof.
  intros Hu Hv. rewrite compare_be_value by done.
  by rewrite !be_value_itob.
Qed.

(** C9. For ids [u] and [v] of type [uint64], [u < v] exactly when the
    8-byte big-endian key of [u] is below that of [v] in the byte-wise
    lexicographic order of keys. *)
Theorem itob_order_embedding (u v : Z) :
  0 ≤ u < two64 → 0 ≤ v < two64 →
  (u < v ↔ bytes_lt (itob u) (itob v)).
Proof.
  intros Hu Hv. unfold bytes_lt, String.ltb. rewrite itob_compare by done.
  destruct (Z.compare_spec u v); split; (done || lia).
Qed.

Lemma itob_le u v :
  0 ≤ u < two64 → 0 ≤ v < two64 → (String.le (itob u) (itob v) ↔ u ≤ v).
Proof.
  intros Hu Hv. unfold String.le, String.leb. rewrite itob_compare by done.
  destruct (Z.compare_spec u v); simpl; split; (done || lia).
Qed.

Lemma itob_inj u v :
  0 ≤ u < two64 → 0 ≤ v < two64 → itob u = itob v → u = v.
Proof.
  intros Hu Hv Heq. rewrite <- (be_value_itob u), <- (be_value_itob v) by done.
  by rewrite Heq.
Qed.

Lemma itob_length v : String.length (itob v) = 8%nat.
Proof. done. Qed.

Lemma len_itob v : len (itob v) = 8.
Proof. done. Qed.

(** From here on [itob] is used through the lemmas above. *)
Global Opaque itob.

(** ** The engine: buckets are gone through in ascending key order *)

Global Instance key_le_dec : RelDecision key_le.
Proof. intros x y. unfold key_le. apply _. Defined.

Global Instance key_le_trans : Transitive key_le.
Proof. intros x y z. unfold key_le. apply transitivity. Qed.

Global Instance key_le_total : Total key_le.
Proof. intros x y. unfold key_le. apply total, _. Qed.

Lemma elem_of_entries bk k v : (k, v) ∈ entries bk ↔ data bk !! k = Some v.
Proof.
  unfold entries. rewrite merge_sort_Permutation. apply elem_of_map_to_list.
Qed.

Lemma StronglySorted_strict {A B : Type} (R : relation A) (f : A → B) l :
  StronglySorted R l → NoDup (f <$> l) →
  StronglySorted (λ x y, R x y ∧ f x ≠ f y) l.
Proof.
  induction 1 as [|x l Hl IH Hx]; intros Hnd; [constructor|].
  rewrite fmap_cons in Hnd. apply NoDup_cons in Hnd as [Hnotin Hnd].
  constructor; [by apply IH|].
  rewrite Forall_forall in Hx |- *. intros y Hy. split; [by apply Hx|].
  intros Heq. apply Hnotin. rewrite Heq. by apply list_elem_of_fmap_2.
Qed.

Lemma StronglySorted_filter {A : Type} (R : relation A) (P : A → Prop)
    `{!∀ x, Decision (P x)} l :
  StronglySorted R l → StronglySorted R (filter P l).
Proof.
  induction 1 as [|x l Hl IH Hx]; [constructor|].
  rewrite filter_cons. case_decide; [|done].
  constructor; [done|]. rewrite Forall_forall in Hx |- *.
  intros y [_ Hy]%list_elem_of_filter. by apply Hx.
Qed.

Lemma entries_sorted bk : StronglySorted key_lt (entries bk).
Proof.
  apply (StronglySorted_strict key_le fst).
  - apply StronglySorted_merge_sort; apply _.
  - unfold entries. rewrite merge_sort_Permutation. apply NoDup_fst_map_to_list.
Qed.

(** Unfolding the steps of a transaction. *)
Ltac tx_unfold :=
  unfold View, Update, Tx_Bucket, Cursor_Seek, bolt.Get, bolt.Put, bolt.Delete,
    NextSequence, fail, mbind, Tx_bind, mret, Tx_ret;
  cbn [bucket set_bucket users objects locks lockPaths data sequence].

(** A call that ended with an error and the database it started from. *)
Ltac call_failed H :=
  repeat case_bool_decide; injection H as <- <-; left; (split; [done|eauto]).

Section Properties.
Context {lib : GoLib} {lockGob : Gob MetaLock} {objectGob : Gob MetaObject}.
Context {lockLaws : GobLaws MetaLock} {objectLaws : GobLaws MetaObject}.

Lemma gob_encode_inj {A : Type} `{GobLaws A} (a b : A) :
  gob_encode a = gob_encode b → a = b.
Proof.
  intros Heq. apply (inj Some).
  by rewrite <- (gob_round_trip a), <- (gob_round_trip b), Heq.
Qed.

Lemma len_zero s : len s = 0 ↔ s = EmptyString.
Proof. unfold len. destruct s; simpl; split; (done || lia). Qed.

Lemma len_bytes_encode {A : Type} `{GobLaws A} (a : A) :
  (len_bytes (Some (gob_encode a)) =? 0) = false.
Proof.
  apply Z.eqb_neq. unfold len_bytes. simpl. rewrite len_zero.
  apply gob_nonempty.
Qed.

Lemma len_bytes_encode_ne {A : Type} `{GobLaws A} (a : A) :
  len_bytes (Some (gob_encode a)) ≠ 0.
Proof. apply Z.eqb_neq, len_bytes_encode. Qed.

Lemma len_bytes_None : (len_bytes None =? 0) = true.
Proof. done. Qed.

(** ** [LockList] *)

Lemma keeps_accepted matchpath meta :
  keeps matchpath meta = bool_decide (accepted matchpath meta).
Proof.
  destruct (decide (accepted matchpath meta)) as [Ha|Hna].
  - rewrite bool_decide_eq_true_2 by done. unfold keeps.
    destruct Ha as [->| ->]; [done|by case_bool_decide].
  - rewrite bool_decide_eq_false_2 by done. unfold keeps, accepted in *.
    case_bool_decide; [|naive_solver].
    destruct (path_Match matchpath (Path meta)) as [[] []]; naive_solver.
Qed.

Lemma clamp_limit_eq limit :
  (if limit <? 1 then 1 else if 100 <? limit then 100 else limit)
  = clamp_limit limit.
Proof. unfold clamp_limit. repeat case_match; lia. Qed.

Lemma clamp_limit_range limit : 1 ≤ clamp_limit limit ≤ 100.
Proof. unfold clamp_limit. lia. Qed.

(** The loop over a cursor whose values all decode: it collects the
    first [limit] accepted locks, and ends on a key that is not [nil]
    exactly when the cursor splits into a visited part holding [limit]
    accepted locks and a part that is not empty. *)
Lemma LockList_loop_spec matchpath c l :
  Forall2 (λ kv meta, gob_decode kv.2 = Some meta) c l →
  ∀ limit locks, 0 ≤ limit →
  ∃ pending,
    LockList_loop matchpath c limit locks
      = inr (locks ++ take (Z.to_nat limit) (filter (accepted matchpath) l), pending)
    ∧ (pending = true ↔
       ∃ visited rest, l = visited ++ rest ∧ rest ≠ [] ∧
         Z.of_nat (length (filter (accepted matchpath) visited)) = limit).
Proof.
  induction 1 as [|[k v] meta c l Hdec Hc IH]; intros limit locks Hlimit;
    cbn [LockList_loop].
  { exists false. rewrite filter_nil, take_nil, app_nil_r. split; [done|].
    split; [done|]. intros (visited & rest & Heq & Hrest & _).
    symmetry in Heq. by apply app_eq_nil in Heq as [_ ?]. }
  simpl in Hdec. rewrite Hdec.
  destruct (0 <? limit) eqn:Hpos.
  - apply Z.ltb_lt in Hpos. rewrite keeps_accepted.
    case_bool_decide as Hacc.
    + destruct (IH (limit - 1) (locks ++ [meta])) as (p & Hrun & Hp); [lia|].
      exists p. split.
      * rewrite Hrun, filter_cons_True by done.
        replace (Z.to_nat limit) with (S (Z.to_nat (limit - 1))) by lia.
        by rewrite <- app_assoc.
      * rewrite Hp. split.
        -- intros (visited & rest & -> & Hrest & Hlen).
           exists (meta :: visited), rest. rewrite filter_cons_True by done.
           simpl. split_and!; [done..|lia].
        -- intros (visited & rest & Heq & Hrest & Hlen).
           destruct visited as [|m visited]; [simpl in Hlen; lia|].
           simpl in Heq. injection Heq as <- ->.
           rewrite filter_cons_True in Hlen by done.
           exists visited, rest. simpl in Hlen. split_and!; [done..|lia].
    + destruct (IH limit locks) as (p & Hrun & Hp); [lia|].
      exists p. split.
      * by rewrite Hrun, filter_cons_False by done.
      * rewrite Hp. split.
        -- intros (visited & rest & -> & Hrest & Hlen).
           exists (meta :: visited), rest. by rewrite filter_cons_False by done.
        -- intros (visited & rest & Heq & Hrest & Hlen).
           destruct visited as [|m visited]; [simpl in Hlen; lia|].
           simpl in Heq. injection Heq as <- ->.
           rewrite filter_cons_False in Hlen by done.
           by exists visited, rest.
  - apply Z.ltb_ge in Hpos. assert (limit = 0) as -> by lia.
    exists true. simpl. rewrite app_nil_r. split; [done|]. split; [|done].
    intros _. by exists [], (meta :: l).
Qed.

Lemma Forall2_omap_decode (c : list (string * string)) :
  Forall (λ kv, is_Some (gob_decode (A:=MetaLock) kv.2)) c →
  Forall2 (λ kv (meta : MetaLock), gob_decode kv.2 = Some meta) c
    (omap (λ kv, gob_decode kv.2) c).
Proof.
  induction 1 as [|kv c [meta Hmeta] _ IH]; [constructor|].
  cbn. rewrite Hmeta. by constructor.
Qed.

Lemma lock_pair_decode kv meta :
  lock_pair kv → gob_decode kv.2 = Some meta →
  kv.1 = itob (ID meta) ∧ kv.2 = gob_encode meta ∧ 0 ≤ ID meta < two64.
Proof.
  intros (meta' & Hk & Hv & Hid) Hdec.
  rewrite Hv, gob_round_trip in Hdec. by simplify_eq.
Qed.

Lemma decoded_sorted c :
  StronglySorted key_lt c → Forall lock_pair c →
  StronglySorted (λ a b, ID a < ID b) (omap (λ kv, gob_decode kv.2) c).
Proof.
  induction 1 as [|kv c Hc IH Hkv]; intros Hwf; [constructor|].
  apply Forall_cons in Hwf as [Hhd Hwf].
  destruct Hhd as (meta & Hk & Hv & Hid).
  cbn. rewrite Hv, gob_round_trip. constructor; [by apply IH|].
  apply Forall_forall. intros meta' (kv' & Hin & Hdec)%list_elem_of_omap.
  pose proof (proj1 (Forall_forall _ _) Hkv) as Hkv'.
  pose proof (proj1 (Forall_forall _ _) Hwf) as Hwf'.
  destruct (lock_pair_decode kv' meta' (Hwf' _ Hin) Hdec) as (Hk' & _ & Hid').
  destruct (Hkv' _ Hin) as [Hle Hne]. unfold key_le in Hle.
  rewrite Hk, Hk' in Hle, Hne.
  pose proof (proj1 (itob_le _ _ Hid Hid') Hle).
  assert (ID meta ≠ ID meta') by congruence. lia.
Qed.

Lemma locks_from_listed db cursor :
  locks_well_formed db → 0 ≤ cursor < two64 →
  listed_from db cursor (locks_from db cursor).
Proof.
  intros (lb & pb & Hlb & Hpb & Hwf) Hcursor. unfold locks_from. rewrite Hlb.
  assert (Forall lock_pair (entries lb)) as Hall.
  { apply Forall_forall. intros [k v] Hin%elem_of_entries. by apply Hwf. }
  split.
  - apply decoded_sorted.
    + apply StronglySorted_filter, entries_sorted.
    + rewrite Forall_forall in Hall |- *.
      intros kv [_ Hin]%list_elem_of_filter. by apply Hall.
  - intros meta. rewrite list_elem_of_omap. split.
    + intros ([k v] & [Hge Hin]%list_elem_of_filter & Hdec).
      rewrite Forall_forall in Hall.
      destruct (lock_pair_decode _ _ (Hall _ Hin) Hdec) as (Hk & Hv & Hid).
      cbn [fst snd] in Hk, Hv, Hge. subst k v. apply elem_of_entries in Hin.
      split; [exists lb; by split|].
      exact (proj1 (itob_le _ _ Hcursor Hid) Hge).
    + intros [(lb' & Hlb' & Hin) Hge]. simplify_eq.
      destruct (Hwf _ _ Hin) as (meta' & Hk & Hv & Hid).
      apply gob_encode_inj in Hv as <-.
      exists (itob (ID meta), gob_encode meta). split.
      * apply list_elem_of_filter.
        split; [exact (proj2 (itob_le _ _ Hcursor Hid) Hge)|].
        by apply elem_of_entries.
      * simpl. apply gob_round_trip.
Qed.

(** The list of [listed_from] is determined by the store and the
    cursor. *)
Lemma listed_from_unique db cursor l1 l2 :
  listed_from db cursor l1 → listed_from db cursor l2 → l1 = l2.
Proof.
  intros [Hsorted1 Hmem1] [Hsorted2 Hmem2].
  assert (∀ l, StronglySorted (λ a b : MetaLock, ID a < ID b) l → NoDup l)
    as Hnodup.
  { induction 1 as [|meta l _ IH Hmeta]; constructor; [|done].
    intros Hin. rewrite Forall_forall in Hmeta. specialize (Hmeta _ Hin). lia. }
  eapply (StronglySorted_unique_strong (λ a b : MetaLock, ID a < ID b));
    [|done|done|].
  - intros m1 m2 _ _ ? ?. lia.
  - apply NoDup_Permutation; [by apply Hnodup..|].
    intros meta. by rewrite Hmem1, Hmem2.
Qed.

(** What a call of [LockList] on a well-formed store returns, in
    terms of the locks the cursor goes through. *)
Lemma LockList_run matchpath cursor limit db :
  locks_well_formed db →
  let l := locks_from db cursor in
  let locks := take (Z.to_nat (clamp_limit limit)) (filter (accepted matchpath) l) in
  ∃ pending,
    LockList matchpath cursor limit db
      = (locks,
         if pending && bool_decide (0 < length locks)%nat
         then uint64 (ID (List.last locks zeroMetaLock) + 1) else cursor,
         pending, None)
    ∧ (pending = true ↔
       ∃ visited rest, l = visited ++ rest ∧ rest ≠ [] ∧
         Z.of_nat (length (filter (accepted matchpath) visited))
         = clamp_limit limit).
Proof.
  intros (lb & pb & Hlb & Hpb & Hwf) l locks.
  pose proof (clamp_limit_range limit) as Hclamp.
  set (c := filter (λ kv, String.le (itob cursor) kv.1) (entries lb)).
  assert (Forall2 (λ kv meta, gob_decode kv.2 = Some meta) c l) as Hdec.
  { unfold l, locks_from. rewrite Hlb. apply Forall2_omap_decode.
    apply Forall_forall.
    intros [k v] [_ Hin%elem_of_entries]%list_elem_of_filter.
    destruct (Hwf _ _ Hin) as (meta & _ & -> & _). simpl.
    rewrite gob_round_trip. by eexists. }
  destruct (LockList_loop_spec matchpath c l Hdec (clamp_limit limit) [])
    as (pending & Hrun & Hpending); [lia|].
  exists pending. split; [|done].
  unfold LockList. tx_unfold. rewrite Hlb. cbn. rewrite Hlb. fold c.
  rewrite clamp_limit_eq, Hrun. done.
Qed.

Lemma in_locks_range db meta :
  locks_well_formed db → in_locks db meta → 0 ≤ ID meta < two64.
Proof.
  intros (lb & pb & Hlb & Hpb & Hwf) (lb' & Hlb' & Hin). simplify_eq.
  destruct (Hwf _ _ Hin) as (meta' & _ & Hv & Hid).
  by apply gob_encode_inj in Hv as <-.
Qed.

(** C4. On a well-formed store, for every pattern, cursor and limit,
    [LockList] returns the first [min (clamp limit 1 100) (number
    available)] accepted locks among the locks with an id of at least
    [cursor] taken by ascending id; a lock is accepted when the
    pattern is empty or its path glob-matches the pattern, and the
    locks that are not accepted do not count against the limit. *)
Theorem LockList_page matchpath cursor limit db :
  locks_well_formed db → 0 ≤ cursor < two64 →
  ∃ l locks next pending,
    listed_from db cursor l ∧
    LockList matchpath cursor limit db = (locks, next, pending, None) ∧
    locks = take (Z.to_nat (clamp_limit limit)) (filter (accepted matchpath) l) ∧
    length locks
    = Nat.min (Z.to_nat (clamp_limit limit)) (length (filter (accepted matchpath) l)).
Proof.
  intros Hwf Hcursor.
  destruct (LockList_run matchpath cursor limit db Hwf) as (pending & Hrun & _).
  eexists (locks_from db cursor), _, _, pending.
  split; [by apply locks_from_listed|]. split; [exact Hrun|].
  split; [done|]. apply length_take.
Qed.

(** C5. On a well-formed store, the locks [LockList] returns are the
    first accepted locks of the store from [cursor] on, by ascending
    id, as many as the clamped limit allows, and [LockList] reports
    [hasMore = true] exactly when the loop stopped on reaching the
    clamped limit of accepted locks while a further entry was left
    after the last one visited: the locks of the store from [cursor]
    on split into the entries visited, which hold as many accepted
    locks as the clamped limit, and a rest that is not empty. The
    cursor returned is then the id of the last lock returned plus
    one, and otherwise the cursor supplied is returned unchanged,
    with [hasMore = false]. *)
Theorem LockList_hasMore matchpath cursor limit db :
  locks_well_formed db → 0 ≤ cursor < two64 →
  ∃ l locks next pending,
    listed_from db cursor l ∧
    LockList matchpath cursor limit db = (locks, next, pending, None) ∧
    locks = take (Z.to_nat (clamp_limit limit)) (filter (accepted matchpath) l) ∧
    (pending = true ↔
       ∃ visited rest, l = visited ++ rest ∧ rest ≠ [] ∧
         Z.of_nat (length (filter (accepted matchpath) visited))
         = clamp_limit limit) ∧
    (pending = true →
       ∃ visited rest meta, l = visited ++ rest ∧ rest ≠ [] ∧
         filter (accepted matchpath) visited = locks ∧
         Z.of_nat (length locks) = clamp_limit limit ∧
         last locks = Some meta ∧ next = ID meta + 1) ∧
    (pending = false → next = cursor).
Proof.
  intros Hwf Hcursor.
  destruct (LockList_run matchpath cursor limit db Hwf) as (pending & Hrun & Hp).
  pose proof (locks_from_listed db cursor Hwf Hcursor) as [Hsorted Hmem].
  pose proof (clamp_limit_range limit) as Hclamp.
  set (l := locks_from db cursor) in *.
  set (locks := take (Z.to_nat (clamp_limit limit)) (filter (accepted matchpath) l)) in *.
  assert (∀ visited rest, l = visited ++ rest →
    Z.of_nat (length (filter (accepted matchpath) visited)) = clamp_limit limit →
    filter (accepted matchpath) visited = locks) as Hvisited.
  { intros visited rest Hl Hlen. unfold locks.
    rewrite Hl, filter_app, take_app_length'; [done|lia]. }
  eexists l, locks, _, pending. split; [done|]. split; [exact Hrun|].
  split; [done|]. split; [exact Hp|]. split.
  - intros ->.
    destruct (proj1 Hp eq_refl) as (visited & rest & Hl & Hrest & Hlen).
    pose proof (Hvisited visited rest Hl Hlen) as Hlocks.
    destruct (last locks) as [meta|] eqn:Hlast.
    2: { apply last_None in Hlast. rewrite Hlocks, Hlast in Hlen.
         simpl in Hlen. lia. }
    exists visited, rest, meta.
    split; [done|]. split; [done|]. split; [done|].
    split; [by rewrite <- Hlocks|]. split; [done|].
    apply last_Some in Hlast as [locks' Hlocks'].
    rewrite Hlocks', last_last, length_app. simpl.
    rewrite bool_decide_eq_true_2 by lia.
    assert (meta ∈ visited) as Hmeta.
    { eapply list_elem_of_filter. rewrite Hlocks, Hlocks'.
      apply elem_of_app. right. by apply list_elem_of_singleton. }
    destruct rest as [|r rest]; [done|].
    rewrite Hl in Hsorted.
    pose proof (StronglySorted_app_1_elem_of _ _ _ meta r Hsorted Hmeta
                  ltac:(left)) as Hlt. simpl in Hlt.
    assert (in_locks db meta) as Hin1.
    { apply Hmem. rewrite Hl. apply elem_of_app. by left. }
    assert (in_locks db r) as Hin2.
    { apply Hmem. rewrite Hl. apply elem_of_app. right. left. }
    pose proof (in_locks_range db meta Hwf Hin1).
    pose proof (in_locks_range db r Hwf Hin2).
    unfold uint64. apply Z.mod_small. lia.
  - intros ->. done.
Qed.

(** C10. On a well-formed store, when the pattern is a malformed glob,
    one for which matching reports an error whatever the path,
    [LockList] returns no lock, no error and [hasMore = false]: every
    entry visited is skipped as if it had failed the match. (A
    malformed pattern is not empty; the empty pattern is never handed
    to the matcher.) *)
Theorem LockList_malformed_pattern matchpath cursor limit db :
  locks_well_formed db →
  matchpath ≠ EmptyString → (∀ name, (path_Match matchpath name).2 = true) →
  LockList matchpath cursor limit db = ([], cursor, false, None).
Proof.
  intros Hwf Hpattern Hbad.
  destruct (LockList_run matchpath cursor limit db Hwf) as (pending & Hrun & Hp).
  pose proof (clamp_limit_range limit) as Hclamp.
  assert (∀ l, filter (accepted matchpath) l = []) as Hnone.
  { intros l. induction l as [|meta l IH]; [done|].
    rewrite filter_cons_False; [done|]. intros [?|Hm]; [done|].
    specialize (Hbad (Path meta)). by rewrite Hm in Hbad. }
  rewrite Hnone, take_nil in Hrun. simpl in Hrun.
  destruct pending.
  - destruct (proj1 Hp eq_refl) as (visited & rest & _ & _ & Hlen).
    rewrite Hnone in Hlen. simpl in Hlen. lia.
  - exact Hrun.
Qed.

(** ** [LockAdd] and [LockDelete], call by call *)

(** A call of [LockAdd] either fails and leaves the database as it
    was, or finds the path free, draws the next sequence value and
    stores the new lock under its id and under its path. *)
Lemma LockAdd_inv filepath owner now db r db' :
  LockAdd filepath owner now db = (r, db') →
  (db' = db ∧ is_Some r.2) ∨
  (∃ lb pb, locks db = Some lb ∧ lockPaths db = Some pb ∧
     len_bytes (data pb !! filepath) = 0 ∧ filepath ≠ EmptyString ∧
     let meta := mkMetaLock (uint64 (sequence pb + 1)) filepath owner now in
     r = (Some meta, None) ∧
     db' = mkDB (users db) (objects db)
             (Some (mkBucket (<[itob (ID meta) := gob_encode meta]> (data lb))
                      (sequence lb)))
             (Some (mkBucket (<[filepath := gob_encode meta]> (data pb))
                      (ID meta)))).
Proof.
  unfold LockAdd. tx_unfold. intros Heq.
  destruct (lockPaths db) as [pb|] eqn:Hpb; cbn in Heq; [|call_failed Heq].
  destruct (Z.eqb _ 0) eqn:Hfree in Heq; cbn in Heq; [|call_failed Heq].
  rewrite Hpb in Heq. cbn in Heq.
  destruct (locks db) as [lb|] eqn:Hlb; cbn in Heq; [|call_failed Heq].
  rewrite len_itob in Heq. cbn in Heq.
  destruct (MaxValueSize <? _) eqn:Hval in Heq; cbn in Heq; [call_failed Heq|].
  destruct (len filepath =? 0) eqn:Hk0 in Heq; cbn in Heq; [call_failed Heq|].
  destruct (MaxKeySize <? len filepath) eqn:Hk1 in Heq; cbn in Heq;
    [call_failed Heq|].
  simplify_eq. right. exists lb, pb. split_and!; try done.
  - rewrite Hpb in Hfree. by apply Z.eqb_eq.
  - by intros ->.
Qed.

(** When [LockAdd] succeeds. *)
Lemma LockAdd_ok filepath owner now db lb pb :
  locks db = Some lb → lockPaths db = Some pb →
  len_bytes (data pb !! filepath) = 0 →
  filepath ≠ EmptyString → len filepath ≤ MaxKeySize →
  let meta := mkMetaLock (uint64 (sequence pb + 1)) filepath owner now in
  len (gob_encode meta) ≤ MaxValueSize →
  LockAdd filepath owner now db
  = ((Some meta, None),
     mkDB (users db) (objects db)
       (Some (mkBucket (<[itob (ID meta) := gob_encode meta]> (data lb))
                (sequence lb)))
       (Some (mkBucket (<[filepath := gob_encode meta]> (data pb)) (ID meta)))).
Proof.
  intros Hlb Hpb Hfree Hne Hkey meta Hval. unfold LockAdd. tx_unfold.
  rewrite Hpb. cbn. rewrite Hpb, Hfree. cbn. rewrite Hpb. cbn. rewrite Hlb. cbn.
  rewrite len_itob. cbn. fold meta.
  rewrite (proj2 (Z.ltb_ge _ _) Hval). cbn.
  assert ((len filepath =? 0) = false) as ->.
  { apply Z.eqb_neq. by rewrite len_zero. }
  rewrite (proj2 (Z.ltb_ge _ _) Hkey). done.
Qed.

(** When [LockAdd] finds the path taken. *)
Lemma LockAdd_duplicate filepath owner now db pb :
  lockPaths db = Some pb → len_bytes (data pb !! filepath) ≠ 0 →
  LockAdd filepath owner now db
  = ((Some zeroMetaLock, Some errDuplicateObject), db).
Proof.
  intros Hpb Hheld. unfold LockAdd. tx_unfold. rewrite Hpb. cbn.
  by rewrite Hpb, (proj2 (Z.eqb_neq _ _) Hheld).
Qed.

(** A call of [LockDelete] either fails and leaves the database as it
    was, or finds a lock under the id, which the caller may delete,
    and removes its id from one bucket and its path from the other. *)
Lemma LockDelete_inv id owner force db r db' :
  LockDelete id owner force db = (r, db') →
  (db' = db ∧ is_Some r.2) ∨
  (∃ lb pb v meta, locks db = Some lb ∧ lockPaths db = Some pb ∧
     data lb !! itob id = Some v ∧ gob_decode v = Some meta ∧
     (force = true ∨ owner = Owner meta) ∧
     r = (Some meta, None) ∧
     db' = mkDB (users db) (objects db)
             (Some (mkBucket (delete (itob id) (data lb)) (sequence lb)))
             (Some (mkBucket (delete (Path meta) (data pb)) (sequence pb)))).
Proof.
  unfold LockDelete. tx_unfold. intros Heq.
  destruct (locks db) as [lb|] eqn:Hlb; cbn in Heq; [|call_failed Heq].
  rewrite Hlb in Heq.
  destruct (data lb !! itob id) as [v|] eqn:Hv;
    [|rewrite len_bytes_None in Heq; call_failed Heq].
  destruct (len_bytes (Some v) =? 0) eqn:Hlen in Heq; cbn in Heq;
    [call_failed Heq|].
  destruct (gob_decode v) as [meta|] eqn:Hdec; cbn in Heq; [|call_failed Heq].
  destruct (negb force && bool_decide (owner ≠ Owner meta)) eqn:Hown in Heq;
    cbn in Heq; [call_failed Heq|].
  rewrite Hlb in Heq. cbn in Heq.
  destruct (lockPaths db) as [pb|] eqn:Hpb; cbn in Heq; [|call_failed Heq].
  simplify_eq. right. exists lb, pb, v, meta. split_and!; try done.
  destruct force; [by left|right]. simpl in Hown.
  apply bool_decide_eq_false in Hown. by apply dec_stable.
Qed.

Lemma LockDelete_not_found id owner force db lb :
  locks db = Some lb → data lb !! itob id = None →
  LockDelete id owner force db = ((None, Some errObjectNotFound), db).
Proof.
  intros Hlb Hv. unfold LockDelete. tx_unfold. rewrite Hlb. cbn.
  by rewrite Hlb, Hv.
Qed.

Lemma LockDelete_unauthorized id owner db lb meta :
  locks db = Some lb → data lb !! itob id = Some (gob_encode meta) →
  owner ≠ Owner meta →
  LockDelete id owner false db = ((None, Some errUnauthorized), db).
Proof.
  intros Hlb Hv Hown. unfold LockDelete. tx_unfold. rewrite Hlb. cbn.
  rewrite Hlb, Hv, len_bytes_encode. cbn. rewrite gob_round_trip. cbn.
  by rewrite bool_decide_eq_true_2.
Qed.

Lemma LockDelete_ok id owner force db lb pb meta :
  locks db = Some lb → lockPaths db = Some pb →
  data lb !! itob id = Some (gob_encode meta) →
  force = true ∨ owner = Owner meta →
  LockDelete id owner force db
  = ((Some meta, None),
     mkDB (users db) (objects db)
       (Some (mkBucket (delete (itob id) (data lb)) (sequence lb)))
       (Some (mkBucket (delete (Path meta) (data pb)) (sequence pb)))).
Proof.
  intros Hlb Hpb Hv Hmay. unfold LockDelete. tx_unfold. rewrite Hlb. cbn.
  rewrite Hlb, Hv, len_bytes_encode. cbn. rewrite gob_round_trip. cbn.
  assert (negb force && bool_decide (owner ≠ Owner meta) = false) as ->.
  { destruct Hmay as [->| ->]; [done|].
    rewrite bool_decide_eq_false_2 by naive_solver. by destruct force. }
  rewrite Hlb. cbn. by rewrite Hpb.
Qed.

(** C8. Whatever the id, the owner and the force flag: a call of
    [LockDelete] that returns an error leaves the database as it was;
    and on a well-formed store the call returns [errObjectNotFound]
    when no lock is stored under the id, [errUnauthorized] when
    [force] is false and the owner is not that of the stored lock,
    and otherwise returns the stored lock and removes its id from the
    id-indexed bucket and its path from the path-indexed bucket. *)
Theorem LockDelete_outcomes id owner force db :
  (∀ r e db', LockDelete id owner force db = ((r, Some e), db') → db' = db) ∧
  (locks_well_formed db →
     (stored_lock db id = None ∨
      ∃ meta : MetaLock, stored_lock db id = Some (gob_encode meta)) ∧
     (stored_lock db id = None →
        LockDelete id owner force db = ((None, Some errObjectNotFound), db)) ∧
     (∀ meta : MetaLock, stored_lock db id = Some (gob_encode meta) →
        (force = false → owner ≠ Owner meta →
           LockDelete id owner force db = ((None, Some errUnauthorized), db)) ∧
        (force = true ∨ owner = Owner meta →
           ∃ lb pb, locks db = Some lb ∧ lockPaths db = Some pb ∧
             LockDelete id owner force db
             = ((Some meta, None),
                mkDB (users db) (objects db)
                  (Some (mkBucket (delete (itob id) (data lb)) (sequence lb)))
                  (Some (mkBucket (delete (Path meta) (data pb)) (sequence pb))))))).
Proof.
  split.
  - intros r e db' Hcall.
    destruct (LockDelete_inv _ _ _ _ _ _ Hcall) as [[-> _]|Hok]; [done|].
    destruct Hok as (? & ? & ? & ? & _ & _ & _ & _ & _ & ? & _). done.
  - intros (lb & pb & Hlb & Hpb & Hwf). unfold stored_lock. rewrite Hlb. simpl.
    split_and!.
    + destruct (data lb !! itob id) as [v|] eqn:Hv; [right|by left].
      destruct (Hwf _ _ Hv) as (meta & _ & -> & _). by exists meta.
    + intros Hnone. by eapply LockDelete_not_found.
    + intros meta Hsome. split.
      * intros -> Hown. by eapply LockDelete_unauthorized.
      * intros Hmay. exists lb, pb. split_and!; [done..|].
        by apply LockDelete_ok.
Qed.

(** C2. When [LockAdd] has created a lock on a path, a second
    [LockAdd] on that path fails with [errDuplicateObject] and leaves
    the store as it was, with the first lock in both buckets; the lock
    it returns next to the error is the zero [MetaLock], not the lock
    that holds the path. *)
Theorem LockAdd_twice filepath o1 t1 o2 t2 db first db1 :
  LockAdd filepath o1 t1 db = ((Some first, None), db1) →
  LockAdd filepath o2 t2 db1
    = ((Some zeroMetaLock, Some errDuplicateObject), db1)
  ∧ in_locks db1 first ∧ in_lockPaths db1 first
  ∧ first ≠ zeroMetaLock.
Proof.
  intros Hfirst.
  destruct (LockAdd_inv _ _ _ _ _ _ Hfirst) as [[_ [? ?]]|Hok]; [done|].
  destruct Hok as (lb & pb & Hlb & Hpb & Hfree & Hne & Hr & ->).
  injection Hr as ->. split_and!.
  - eapply LockAdd_duplicate; [done|]. cbn [data].
    rewrite lookup_insert_eq. apply len_bytes_encode_ne.
  - eexists. split; [done|]. cbn [data ID]. apply lookup_insert_eq.
  - eexists. split; [done|]. cbn [data Path]. apply lookup_insert_eq.
  - intros Heq. apply (f_equal Path) in Heq. done.
Qed.

(** ** The lock buckets along a sequence of calls *)

Lemma store_inv_NewMetaStore : store_inv NewMetaStore.
Proof.
  exists emptyBucket, emptyBucket. split_and!; done.
Qed.

Lemma store_inv_well_formed db : store_inv db → locks_well_formed db.
Proof.
  intros (lb & pb & Hlb & Hpb & Hseq & Hids & _). exists lb, pb.
  split_and!; [done..|]. intros k v Hkv.
  destruct (Hids _ _ Hkv) as (meta & ? & ? & ? & _). exists meta.
  split_and!; [done..|lia|lia].
Qed.

Lemma store_inv_in_sync db : store_inv db → locks_in_sync db.
Proof.
  intros (lb & pb & Hlb & Hpb & Hseq & Hids & Hpaths).
  assert (∀ meta, in_locks db meta ↔ in_lockPaths db meta) as Hiff.
  { intros meta. split.
    - intros (lb' & ? & Hin). simplify_eq.
      destruct (Hids _ _ Hin) as (meta' & _ & Hv & _ & Hp).
      apply gob_encode_inj in Hv as <-. by exists pb.
    - intros (pb' & ? & Hin). simplify_eq.
      destruct (Hpaths _ _ Hin) as (meta' & _ & Hv & _ & Hl).
      apply gob_encode_inj in Hv as <-. by exists lb. }
  split; [| |done|].
  - intros lb' k v ? Hin. simplify_eq.
    destruct (Hids _ _ Hin) as (meta & -> & -> & _ & Hp).
    exists meta. split_and!; [done..|]. by exists pb.
  - intros pb' k v ? Hin. simplify_eq.
    destruct (Hpaths _ _ Hin) as (meta & -> & -> & _ & Hl).
    exists meta. split_and!; [done..|]. by exists lb.
  - intros m1 m2 (pb1 & ? & H1)%Hiff (pb2 & ? & H2)%Hiff Hpath. simplify_eq.
    rewrite Hpath in H1. rewrite H1 in H2. injection H2 as H2.
    by apply gob_encode_inj.
Qed.

(** [LockAdd] keeps the invariant as long as the sequence does not
    wrap, and hands out the next sequence value. *)
Lemma LockAdd_store_inv filepath owner now db r db' :
  store_inv db →
  LockAdd filepath owner now db = (r, db') →
  (∀ meta, r = (Some meta, None) → lock_sequence db + 1 < two64) →
  store_inv db' ∧
  ((∀ meta, r ≠ (Some meta, None)) → lock_sequence db' = lock_sequence db) ∧
  ∀ meta, r = (Some meta, None) →
    ID meta = lock_sequence db + 1 ∧ lock_sequence db' = lock_sequence db + 1.
Proof.
  intros Hinv Hcall Hroom.
  destruct (LockAdd_inv _ _ _ _ _ _ Hcall) as [[-> [e He]]|Hok].
  { split_and!; [done|done|]. intros meta ->. done. }
  destruct Hok as (lb & pb & Hlb & Hpb & Hfree & Hne & -> & ->).
  specialize (Hroom _ eq_refl).
  destruct Hinv as (lb' & pb' & Hlb' & Hpb' & Hseq & Hids & Hpaths).
  assert (lb' = lb) as -> by congruence.
  assert (pb' = pb) as -> by congruence.
  unfold lock_sequence in *. rewrite Hpb in *. cbn [lockPaths sequence ID].
  assert (uint64 (sequence pb + 1) = sequence pb + 1) as Hid.
  { unfold uint64. apply Z.mod_small. lia. }
  rewrite Hid.
  set (meta := mkMetaLock (sequence pb + 1) filepath owner now).
  assert (data pb !! filepath = None) as Hpath.
  { destruct (data pb !! filepath) as [v|] eqn:Hv; [|done].
    destruct (Hpaths _ _ Hv) as (m & _ & -> & _).
    by apply len_bytes_encode_ne in Hfree. }
  assert (data lb !! itob (sequence pb + 1) = None) as Hfresh.
  { destruct (data lb !! itob (sequence pb + 1)) as [v|] eqn:Hv; [|done].
    destruct (Hids _ _ Hv) as (m & Hk & _ & Hm & _).
    apply itob_inj in Hk; lia. }
  split_and!; [|by intros Hnot; destruct (Hnot _ eq_refl)|by intros ? [= <-]].
  eexists _, _. split_and!; [done|done|cbn;lia|cbn;lia|cbn [data sequence]..].
  - intros k v Hkv. destruct (decide (k = itob (sequence pb + 1))) as [->|Hk].
    + rewrite lookup_insert_eq in Hkv. injection Hkv as <-.
      exists meta. split_and!; [done|done|simpl; lia|simpl; lia|].
      apply lookup_insert_eq.
    + rewrite lookup_insert_ne in Hkv by done.
      destruct (Hids _ _ Hkv) as (m & ? & ? & ? & Hp).
      exists m. split_and!; [done|done|lia|lia|].
      rewrite lookup_insert_ne; [done|]. intros Heq.
      rewrite <- Heq in Hp. congruence.
  - intros k v Hkv. destruct (decide (k = filepath)) as [->|Hk].
    + rewrite lookup_insert_eq in Hkv. injection Hkv as <-.
      exists meta. split_and!; [done|done|simpl; lia|simpl; lia|].
      apply lookup_insert_eq.
    + rewrite lookup_insert_ne in Hkv by done.
      destruct (Hpaths _ _ Hkv) as (m & ? & ? & ? & Hl).
      exists m. split_and!; [done|done|lia|lia|].
      rewrite lookup_insert_ne; [done|]. intros Heq. simpl in Heq.
      rewrite Heq in Hfresh. congruence.
Qed.

Lemma LockDelete_store_inv id owner force db r db' :
  store_inv db → LockDelete id owner force db = (r, db') →
  store_inv db' ∧ lock_sequence db' = lock_sequence db.
Proof.
  intros Hinv Hcall.
  destruct (LockDelete_inv _ _ _ _ _ _ Hcall) as [[-> _]|Hok]; [done|].
  destruct Hok as (lb & pb & v & meta & Hlb & Hpb & Hv & Hdec & _ & -> & ->).
  destruct Hinv as (lb' & pb' & Hlb' & Hpb' & Hseq & Hids & Hpaths).
  assert (lb' = lb) as -> by congruence.
  assert (pb' = pb) as -> by congruence.
  destruct (Hids _ _ Hv) as (m & Hid & -> & _ & Hp).
  rewrite gob_round_trip in Hdec. injection Hdec as ->.
  unfold lock_sequence. rewrite Hpb. split; [|done].
  eexists _, _. split_and!; [done|done|cbn;lia|cbn;lia|cbn [data sequence]..].
  - intros k v' Hkv. apply lookup_delete_Some in Hkv as [Hk Hkv].
    destruct (Hids _ _ Hkv) as (m' & Hk' & Hv' & ? & Hp').
    exists m'. split_and!; [done|done|lia|lia|].
    apply lookup_delete_Some. split; [|done]. intros Heq.
    assert (gob_encode m' = gob_encode meta) as Hsame by congruence.
    apply gob_encode_inj in Hsame. congruence.
  - intros k v' Hkv. apply lookup_delete_Some in Hkv as [Hk Hkv].
    destruct (Hpaths _ _ Hkv) as (m' & Hk' & Hv' & ? & Hl').
    exists m'. split_and!; [done|done|lia|lia|].
    apply lookup_delete_Some. split; [|done]. intros Heq.
    assert (gob_encode m' = gob_encode meta) as Hsame by congruence.
    apply gob_encode_inj in Hsame. congruence.
Qed.

Lemma StronglySorted_lt_NoDup (ids : list Z) :
  StronglySorted Z.lt ids → NoDup ids.
Proof.
  induction 1 as [|id ids _ IH Hid]; [constructor|].
  constructor; [|done]. intros Hin.
  rewrite Forall_forall in Hid. specialize (Hid _ Hin). lia.
Qed.

Lemma run_app ops1 ops2 db :
  run (ops1 ++ ops2) db
  = ((run ops1 db).1 ++ (run ops2 (run ops1 db).2).1, (run ops2 (run ops1 db).2).2).
Proof.
  revert db. induction ops1 as [|o ops1 IH]; intros db; cbn [run app fst snd].
  { by destruct (run ops2 db). }
  destruct (apply_op o db) as [r db1]. rewrite IH.
  destruct (run ops1 db1) as [log1 db2]. cbn [fst snd].
  by destruct (run ops2 db2).
Qed.

Lemma apply_op_store_inv o db r db' :
  store_inv db →
  apply_op o db = (r, db') →
  (is_Some (assigned_id (o, r)) → lock_sequence db + 1 < two64) →
  store_inv db' ∧
  (assigned_id (o, r) = None → lock_sequence db' = lock_sequence db) ∧
  ∀ id, assigned_id (o, r) = Some id →
    id = lock_sequence db + 1 ∧ lock_sequence db' = lock_sequence db + 1.
Proof.
  intros Hinv Hcall Hroom. destruct o as [filepath owner now|id owner force].
  - destruct (LockAdd_store_inv _ _ _ _ _ _ Hinv Hcall) as (? & Hfail & Hid).
    { intros meta ->. apply Hroom. by eexists. }
    split; [done|]. split.
    + intros Hnone. apply Hfail. intros meta ->. done.
    + intros id Hassigned.
      destruct r as [[meta|] [e|]]; simplify_eq/=. by apply Hid.
  - destruct (LockDelete_store_inv _ _ _ _ _ _ Hinv Hcall) as [? Hseq].
    split_and!; [done|done|]. intros id' Hassigned. done.
Qed.

(** As long as fewer than 2^64 ids have been drawn, the invariant is
    kept, the sequence counts the locks created, and the ids handed out
    go up, each within the values the sequence went through. *)
Lemma run_store_inv ops : ∀ db,
  store_inv db →
  lock_sequence db + Z.of_nat (length (assigned_ids (run ops db).1)) < two64 →
  store_inv (run ops db).2 ∧
  lock_sequence (run ops db).2
  = lock_sequence db + Z.of_nat (length (assigned_ids (run ops db).1)) ∧
  StronglySorted Z.lt (assigned_ids (run ops db).1) ∧
  Forall (λ id, lock_sequence db < id ≤ lock_sequence (run ops db).2)
    (assigned_ids (run ops db).1).
Proof.
  induction ops as [|o ops IH]; intros db Hinv; cbn [run].
  { cbn. intros _. split_and!; [done|lia|constructor|constructor]. }
  destruct (apply_op o db) as [r db1] eqn:Hcall.
  pose proof (apply_op_store_inv _ _ _ _ Hinv Hcall) as Hstep.
  specialize (IH db1). destruct (run ops db1) as [log db2]. cbn [fst snd] in *.
  unfold assigned_ids in *. cbn [omap list_omap]. fold (assigned_ids log) in *.
  destruct (assigned_id (o, r)) as [id|] eqn:Hassigned.
  - rewrite length_cons, Nat2Z.inj_succ. intros Hroom.
    destruct Hstep as (Hinv1 & _ & Hid); [lia|].
    destruct (Hid id eq_refl) as [-> Hseq].
    destruct IH as (Hinv2 & Hseq2 & Hsorted & Hbounds); [done|lia|].
    split_and!; [done|lia| |].
    + constructor; [done|]. eapply Forall_impl; [exact Hbounds|].
      intros id'. simpl. lia.
    + constructor; [lia|]. eapply Forall_impl; [exact Hbounds|].
      intros id'. simpl. lia.
  - intros Hroom. destruct Hstep as (Hinv1 & Hseq & _); [by intros [? ?]|].
    rewrite (Hseq eq_refl) in IH.
    by destruct IH as (Hinv2 & Hseq2 & Hsorted & Hbounds); [done|lia|].
Qed.

(** C1, as amended. On a store created by [NewMetaStore], after any
    sequence of calls of [LockAdd] and [LockDelete] that created fewer
    than 2^64 locks (so that the 64-bit id sequence has not wrapped
    around), the two lock buckets are in sync: each entry of the
    id-indexed bucket is a lock stored under its id, each entry of the
    path-indexed bucket is a lock stored under its path, a lock is in
    one bucket exactly when it is, with the same payload, in the other,
    and no two locks of the store have the same path. *)
Theorem locks_in_sync_until_wrap ops :
  Z.of_nat (length (assigned_ids (run ops NewMetaStore).1)) < two64 →
  locks_in_sync (run ops NewMetaStore).2.
Proof.
  intros Hcreated. apply store_inv_in_sync.
  by apply run_store_inv; [apply store_inv_NewMetaStore|].
Qed.

(** C3, as amended. On a store created by [NewMetaStore], along any
    sequence of calls of [LockAdd] and [LockDelete] that creates fewer
    than 2^64 locks, the ids of the locks created go strictly up in the
    order of creation: each is above every id assigned before it, and
    no id is assigned twice, whether or not the lock that held it was
    deleted. *)
Theorem lock_ids_increase_until_wrap ops :
  Z.of_nat (length (assigned_ids (run ops NewMetaStore).1)) < two64 →
  StronglySorted Z.lt (assigned_ids (run ops NewMetaStore).1)
  ∧ NoDup (assigned_ids (run ops NewMetaStore).1).
Proof.
  intros Hcreated.
  destruct (run_store_inv ops NewMetaStore store_inv_NewMetaStore)
    as (_ & _ & Hsorted & _); [done|].
  split; [done|]. by apply StronglySorted_lt_NoDup.
Qed.

(** Whatever the calls, every pair of the id-indexed bucket stays a
    lock under its own key. *)
Lemma apply_op_well_formed o db :
  locks_well_formed db → locks_well_formed (apply_op o db).2.
Proof.
  intros Hwf. destruct (apply_op o db) as [r db'] eqn:Hcall.
  destruct o as [filepath owner now|id owner force]; cbn [apply_op] in Hcall.
  - destruct (LockAdd_inv _ _ _ _ _ _ Hcall) as [[-> _]|Hok]; [done|].
    destruct Hok as (lb & pb & Hlb & Hpb & _ & _ & _ & ->).
    destruct Hwf as (lb' & pb' & Hlb' & Hpb' & Hwf).
    assert (lb' = lb) as -> by congruence.
    eexists _, _. split_and!; [done..|]. cbn [data ID]. intros k v Hkv.
    apply lookup_insert_Some in Hkv as [(<- & <-)|[_ Hkv]]; [|by apply Hwf].
    exists (mkMetaLock (uint64 (sequence pb + 1)) filepath owner now).
    cbn [ID]. split; [done|]. split; [done|]. by apply Z.mod_pos_bound.
  - destruct (LockDelete_inv _ _ _ _ _ _ Hcall) as [[-> _]|Hok]; [done|].
    destruct Hok as (lb & pb & v & meta & Hlb & Hpb & _ & _ & _ & _ & ->).
    destruct Hwf as (lb' & pb' & Hlb' & Hpb' & Hwf).
    assert (lb' = lb) as -> by congruence.
    eexists _, _. split_and!; [done..|]. cbn [data]. intros k v' Hkv.
    apply lookup_delete_Some in Hkv as [_ Hkv]. by apply Hwf.
Qed.

Lemma run_well_formed ops : ∀ db,
  locks_well_formed db → locks_well_formed (run ops db).2.
Proof.
  induction ops as [|o ops IH]; intros db Hwf; cbn [run]; [done|].
  pose proof (apply_op_well_formed o db Hwf) as Hwf1.
  destruct (apply_op o db) as [r db1]. specialize (IH db1 Hwf1).
  by destruct (run ops db1).
Qed.

(** Every store reached from a new one is well formed. *)
Lemma reachable_well_formed ops : locks_well_formed (run ops NewMetaStore).2.
Proof.
  apply run_well_formed, store_inv_well_formed, store_inv_NewMetaStore.
Qed.

(** Taking and releasing a lock [n] times moves the sequence by [n]
    and nothing else, as long as the sequence does not wrap. *)
Lemma run_churn n : ∀ s u o dl sl dp,
  0 ≤ s → s + Z.of_nat n < two64 →
  dp !! "/tmp" = None →
  (∀ i, s < i ≤ s + Z.of_nat n → dl !! itob i = None) →
  (∀ i, 0 ≤ i < two64 →
     len (gob_encode (mkMetaLock i "/tmp" "carol" "t")) ≤ MaxValueSize) →
  (run (churn s n) (mkDB u o (Some (mkBucket dl sl)) (Some (mkBucket dp s)))).2
  = mkDB u o (Some (mkBucket dl sl)) (Some (mkBucket dp (s + Z.of_nat n))).
Proof.
  induction n as [|n IH]; intros s u o dl sl dp Hs Hroom Hfree Hfresh Hsize.
  { cbn [churn run snd]. by rewrite Z.add_0_r. }
  rewrite Nat2Z.inj_succ in Hroom, Hfresh |- *. cbn [churn run apply_op].
  assert (uint64 (s + 1) = s + 1) as Hid.
  { unfold uint64. apply Z.mod_small. lia. }
  set (meta := mkMetaLock (s + 1) "/tmp" "carol" "t").
  set (db0 := mkDB u o (Some (mkBucket dl sl)) (Some (mkBucket dp s))).
  set (db1 := mkDB u o
                (Some (mkBucket (<[itob (s + 1) := gob_encode meta]> dl) sl))
                (Some (mkBucket (<["/tmp" := gob_encode meta]> dp) (s + 1)))).
  assert (LockAdd "/tmp" "carol" "t" db0 = ((Some meta, None), db1)) as ->.
  { rewrite (LockAdd_ok "/tmp" "carol" "t" db0 (mkBucket dl sl) (mkBucket dp s));
      cbn [data sequence ID]; rewrite ?Hid; try done.
    - by rewrite Hfree.
    - apply Hsize. lia. }
  assert (LockDelete (s + 1) "carol" false db1
          = ((Some meta, None),
             mkDB u o (Some (mkBucket dl sl)) (Some (mkBucket dp (s + 1)))))
    as ->.
  { rewrite (LockDelete_ok (s + 1) "carol" false db1 _ _ meta eq_refl eq_refl);
      cbn [data sequence users objects Path meta].
    - rewrite !delete_insert_id; [done..|]. apply Hfresh. lia.
    - apply lookup_insert_eq.
    - by right. }
  specialize (IH (s + 1) u o dl sl dp).
  destruct (run (churn (s + 1) n) _) as [log db']. cbn [snd] in *.
  rewrite IH; [f_equal; f_equal; f_equal; lia|lia|lia|done| |done].
  intros i Hi. apply Hfresh. lia.
Qed.

(** ** [authenticate] *)

Lemma substring_all s : String.substring 0 (String.length s) s = s.
Proof. induction s as [|c s IH]; simpl; [done|by rewrite IH]. Qed.

Lemma HasPrefix_app pre rest : strings_HasPrefix (pre +:+ rest) pre = true.
Proof.
  unfold strings_HasPrefix. induction pre as [|c pre IH]; simpl.
  - by destruct rest.
  - destruct (ascii_dec c c); [done|congruence].
Qed.

Lemma TrimPrefix_app pre rest : strings_TrimPrefix (pre +:+ rest) pre = rest.
Proof.
  unfold strings_TrimPrefix. rewrite HasPrefix_app.
  induction pre as [|c pre IH]; simpl.
  - rewrite Nat.sub_0_r. apply substring_all.
  - exact IH.
Qed.

Lemma IndexByte_absent s c :
  c ∉ String.list_ascii_of_string s → strings_IndexByte s c = -1.
Proof.
  induction s as [|a s IH]; simpl; [done|].
  intros Hnotin. apply not_elem_of_cons in Hnotin as [Hne Hnotin].
  rewrite (proj2 (Ascii.eqb_neq _ _)) by done. by rewrite IH.
Qed.

Lemma IndexByte_app user c rest :
  c ∉ String.list_ascii_of_string user →
  strings_IndexByte (user +:+ String c rest) c = len user.
Proof.
  unfold len. induction user as [|a user IH]; simpl.
  - intros _. by rewrite Ascii.eqb_refl.
  - intros Hnotin. apply not_elem_of_cons in Hnotin as [Hne Hnotin].
    rewrite (proj2 (Ascii.eqb_neq _ _)) by done. rewrite IH by done.
    destruct (Z.ltb_spec (Z.of_nat (String.length user)) 0); lia.
Qed.

Lemma slice_to_app user rest : slice_to (user +:+ rest) (len user) = user.
Proof.
  unfold slice_to, len. rewrite Nat2Z.id.
  induction user as [|a user IH]; simpl; [by destruct rest|by rewrite IH].
Qed.

Lemma slice_from_app user c rest :
  slice_from (user +:+ String c rest) (len user + 1) = rest.
Proof.
  unfold slice_from, len.
  replace (Z.to_nat (Z.of_nat (String.length user) + 1))
    with (S (String.length user)) by lia.
  induction user as [|a user IH]; simpl.
  - rewrite Nat.sub_0_r. apply substring_all.
  - exact IH.
Qed.

(** The cases of [authenticate] leave no input out: a value has the
    prefix or not, and a decoded payload has a first colon or none. *)
Lemma HasPrefix_inv s pre :
  strings_HasPrefix s pre = true → ∃ rest, s = pre +:+ rest.
Proof.
  unfold strings_HasPrefix. revert s.
  induction pre as [|c pre IH]; intros s; [by exists s|].
  destruct s as [|a s]; simpl; [done|].
  destruct (ascii_dec c a) as [->|]; [|done].
  intros [rest ->]%IH. by exists rest.
Qed.

Lemma colon_split cs :
  ":"%char ∉ String.list_ascii_of_string cs ∨
  ∃ user password,
    cs = user +:+ String ":" password ∧
    ":"%char ∉ String.list_ascii_of_string user.
Proof.
  induction cs as [|a cs IH]; simpl; [left; apply not_elem_of_nil|].
  destruct (decide (a = ":"%char)) as [->|Hne].
  { right. exists EmptyString, cs. split; [done|apply not_elem_of_nil]. }
  destruct IH as [Hnone|(user & password & -> & Huser)].
  - left. apply not_elem_of_cons. by split; [congruence|].
  - right. exists (String a user), password. split; [done|].
    simpl. apply not_elem_of_cons. by split; [congruence|].
Qed.

(** The read-only transaction of [authenticate] yields the secret
    stored for the user, or the empty string. *)
Lemma user_secret_view user db :
  match View (bucket ← Tx_Bucket usersBucket;
              match bucket with
              | None => fail errNoBucket
              | Some bucket => v ← bolt.Get bucket user; mret (string_of v)
              end) db with
  | inl _ => EmptyString
  | inr v => v
  end = string_of (stored_secret db user).
Proof.
  tx_unfold. unfold stored_secret.
  destruct (users db) as [b|] eqn:Husers; cbn; by rewrite ?Husers.
Qed.

(** The credential is looked up in the user bucket only. *)
Lemma authenticate_users authorization db db' :
  users db = users db' →
  authenticate authorization db = authenticate authorization db'.
Proof.
  intros Husers. unfold authenticate.
  destruct (IsPublic Config); [done|]. case_bool_decide; [done|].
  destruct (negb _); [done|].
  destruct (base64_DecodeString _) as [cs|]; [|done].
  destruct (_ <? 0); [done|]. destruct (checkBasicAuth _ _ _); [done|].
  rewrite !user_secret_view. unfold stored_secret. by rewrite Husers.
Qed.

(** C7, as amended. [authenticate] returns true whatever the input
    when the store is public. Otherwise it returns false, never an
    error, on an empty value, on a value without the "Basic " prefix,
    on a payload that is not base64 and on a decoded payload without
    a colon; on a payload decoding to [user:password] it returns true
    when the pair is the static administrator credential, and
    otherwise returns true exactly when a secret is stored for the
    user, is not empty and equals the password. *)
Theorem authenticate_cases authorization db :
  (IsPublic Config = true → authenticate authorization db = true) ∧
  (IsPublic Config = false →
     (authorization = EmptyString → authenticate authorization db = false) ∧
     (strings_HasPrefix authorization "Basic " = false →
        authenticate authorization db = false) ∧
     (∀ payload, authorization = "Basic " +:+ payload →
        (base64_DecodeString payload = None →
           authenticate authorization db = false) ∧
        (∀ cs, base64_DecodeString payload = Some cs →
           ":"%char ∉ String.list_ascii_of_string cs →
           authenticate authorization db = false) ∧
        (∀ user password,
           base64_DecodeString payload = Some (user +:+ String ":" password) →
           ":"%char ∉ String.list_ascii_of_string user →
           (user = AdminUser Config ∧ password = AdminPass Config →
              authenticate authorization db = true) ∧
           (¬ (user = AdminUser Config ∧ password = AdminPass Config) →
              (authenticate authorization db = true ↔
               ∃ secret, stored_secret db user = Some secret ∧
                         secret ≠ EmptyString ∧ secret = password))))).
Proof.
  unfold authenticate. split; [by intros ->|]. intros ->. split_and!.
  - by intros ->.
  - by intros ->; case_bool_decide.
  - intros payload ->. rewrite HasPrefix_app, TrimPrefix_app.
    rewrite bool_decide_eq_false_2 by done. cbn [negb]. split_and!.
    + by intros ->.
    + intros cs -> Hcolon. by rewrite IndexByte_absent.
    + intros user password -> Hcolon.
      rewrite IndexByte_app, slice_to_app, slice_from_app by done.
      assert ((len user <? 0) = false) as ->.
      { apply Z.ltb_ge. unfold len. lia. }
      unfold checkBasicAuth. cbn [andb]. split.
      * intros [Hu Hp].
        by rewrite (bool_decide_eq_true_2 _ Hu), (bool_decide_eq_true_2 _ Hp).
      * intros Hadmin.
        assert (bool_decide (user = AdminUser Config)
                && bool_decide (password = AdminPass Config) = false) as ->.
        { apply andb_false_iff.
          destruct (decide (user = AdminUser Config));
            [right|left]; apply bool_decide_eq_false; naive_solver. }
        rewrite !user_secret_view.
        destruct (stored_secret db user) as [secret|]; cbn [string_of default].
        -- rewrite andb_true_iff, !bool_decide_eq_true. split.
           ++ intros [Hne Heq]. by exists secret.
           ++ by intros (secret' & [= <-] & Hne & Heq).
        -- rewrite bool_decide_eq_false_2 by (intros Hne; by apply Hne).
           split; [done|]. by intros (secret & Hsome & _).
Qed.

(** ** [Put] and [Get] *)

Lemma UnsafeGet_found v db ob (meta : MetaObject) :
  objects db = Some ob → data ob !! vOid v = Some (gob_encode meta) →
  UnsafeGet v db = (Some meta, None).
Proof.
  intros Hob Hmeta. unfold UnsafeGet. tx_unfold. rewrite Hob. cbn.
  rewrite Hob, Hmeta, len_bytes_encode. cbn. by rewrite gob_round_trip.
Qed.

Lemma UnsafeGet_not_found v db ob :
  objects db = Some ob → data ob !! vOid v = None →
  UnsafeGet v db = (None, Some errObjectNotFound).
Proof.
  intros Hob Hnone. unfold UnsafeGet. tx_unfold. rewrite Hob. cbn.
  by rewrite Hob, Hnone.
Qed.

(** C6, as amended. For a credential accepted by [authenticate]:
    when no record is stored for the oid, and the oid is a key the
    engine takes (not empty, at most [MaxKeySize] bytes, with an
    encoded record of at most [MaxValueSize] bytes), [Put] stores
    [{oid, size}] and returns it with [Existing = false], and a [Get]
    with the same credential then returns the record with that oid
    and size; when a record is already stored for the oid, [Put]
    returns that record with [Existing = true] and leaves the
    database, hence the stored size, as it was. *)
Theorem Put_then_Get v db ob :
  authenticate (vAuthorization v) db = true →
  objects db = Some ob →
  (data ob !! vOid v = None →
   vOid v ≠ EmptyString → len (vOid v) ≤ MaxKeySize →
   let meta := mkMetaObject (vOid v) (vSize v) false in
   len (gob_encode meta) ≤ MaxValueSize →
   let db' := mkDB (users db)
                (Some (mkBucket (<[vOid v := gob_encode meta]> (data ob))
                         (sequence ob)))
                (locks db) (lockPaths db) in
   Put v db = ((Some meta, None), db') ∧ Get v db' = (Some meta, None)) ∧
  (∀ meta : MetaObject, data ob !! vOid v = Some (gob_encode meta) →
     Put v db = ((Some (mkMetaObject (Oid meta) (Size meta) true), None), db)).
Proof.
  intros Hauth Hob. split.
  - intros Hnone Hoid Hkey meta Hval db'. split.
    + unfold Put, Get. rewrite Hauth. cbn [negb].
      rewrite (UnsafeGet_not_found v db ob) by done. tx_unfold.
      rewrite Hob. cbn. fold meta.
      assert ((len (vOid v) =? 0) = false) as ->.
      { apply Z.eqb_neq. by rewrite len_zero. }
      rewrite (proj2 (Z.ltb_ge _ _) Hkey), (proj2 (Z.ltb_ge _ _) Hval).
      by rewrite Hob.
    + unfold Get. rewrite <- (authenticate_users _ db db') by done.
      rewrite Hauth. cbn [negb]. eapply UnsafeGet_found; [done|].
      cbn [data]. apply lookup_insert_eq.
  - intros meta Hmeta. unfold Put, Get. rewrite Hauth. cbn [negb].
    by rewrite (UnsafeGet_found v db ob meta).
Qed.

(** ** Users *)

(** A payload that decodes to [user:password]. *)
Lemma authenticate_decoded payload user password db :
  IsPublic Config = false →
  base64_DecodeString payload = Some (user +:+ String ":" password) →
  ":"%char ∉ String.list_ascii_of_string user →
  authenticate ("Basic " +:+ payload) db
  = checkBasicAuth user password true
    || (bool_decide (string_of (stored_secret db user) ≠ EmptyString)
        && bool_decide (string_of (stored_secret db user) = password)).
Proof.
  intros Hpublic Hdecode Hcolon. unfold authenticate.
  rewrite Hpublic, HasPrefix_app, TrimPrefix_app, Hdecode.
  rewrite bool_decide_eq_false_2 by done. cbn [negb].
  rewrite IndexByte_app, slice_to_app, slice_from_app by done.
  assert ((len user <? 0) = false) as ->.
  { apply Z.ltb_ge. unfold len. lia. }
  destruct (checkBasicAuth user password true); [done|].
  by rewrite !user_secret_view.
Qed.

Lemma AddUser_ok user pass db ub :
  users db = Some ub →
  user ≠ EmptyString → len user ≤ MaxKeySize → len pass ≤ MaxValueSize →
  AddUser user pass db
  = (None, mkDB (Some (mkBucket (<[user:=pass]> (data ub)) (sequence ub)))
             (objects db) (locks db) (lockPaths db)).
Proof.
  intros Hub Huser Hkey Hval. unfold AddUser. tx_unfold. rewrite Hub. cbn.
  assert ((len user =? 0) = false) as ->.
  { apply Z.eqb_neq. by rewrite len_zero. }
  rewrite (proj2 (Z.ltb_ge _ _) Hkey), (proj2 (Z.ltb_ge _ _) Hval).
  by rewrite Hub.
Qed.

Lemma DeleteUser_ok user db ub :
  users db = Some ub →
  DeleteUser user db
  = (None, mkDB (Some (mkBucket (delete user (data ub)) (sequence ub)))
             (objects db) (locks db) (lockPaths db)).
Proof.
  intros Hub. unfold DeleteUser. tx_unfold. rewrite Hub. cbn. by rewrite Hub.
Qed.

(** X1. After [AddUser user pass] with a name and a password the
    engine takes, [pass] is the secret stored for [user], whatever
    was stored for the user before, and the secrets of the other
    users are as they were. On a store that is not public, when the
    name holds no colon and the password is not empty, [authenticate]
    then accepts the credential [user:pass]. (The decoded credential
    is split at its first colon, so a name with a colon is never the
    user that [authenticate] looks up.) *)
Theorem AddUser_then_authenticate user pass db ub :
  users db = Some ub →
  user ≠ EmptyString → len user ≤ MaxKeySize → len pass ≤ MaxValueSize →
  ∃ db', AddUser user pass db = (None, db') ∧
    stored_secret db' user = Some pass ∧
    (∀ other, other ≠ user → stored_secret db' other = stored_secret db other) ∧
    (∀ payload,
       IsPublic Config = false →
       ":"%char ∉ String.list_ascii_of_string user →
       pass ≠ EmptyString →
       base64_DecodeString payload = Some (user +:+ String ":" pass) →
       authenticate ("Basic " +:+ payload) db' = true).
Proof.
  intros Hub Huser Hkey Hval.
  eexists. split; [by apply AddUser_ok|].
  assert (∀ other,
    stored_secret
      (mkDB (Some (mkBucket (<[user:=pass]> (data ub)) (sequence ub)))
         (objects db) (locks db) (lockPaths db)) other
    = <[user:=pass]> (data ub) !! other) as Hsecret by done.
  split_and!.
  - by rewrite Hsecret, lookup_insert_eq.
  - intros other Hother. rewrite Hsecret, lookup_insert_ne by done.
    unfold stored_secret. by rewrite Hub.
  - intros payload Hpublic Hcolon Hpass Hdecode.
    rewrite (authenticate_decoded payload user pass) by done.
    rewrite Hsecret, lookup_insert_eq. cbn [string_of default].
    rewrite !bool_decide_eq_true_2 by done. apply orb_true_r.
Qed.

(** X2. [AddUser] returns no error exactly when the user bucket is
    there and the engine takes the name as a key and the password as a
    value: the name is not empty and has at most [MaxKeySize] bytes,
    the password at most [MaxValueSize]. When it returns an error the
    database is as before; for an empty name on a store with its
    buckets the error is [ErrKeyRequired]. *)
Theorem AddUser_outcomes user pass db :
  ((AddUser user pass db).1 = None ↔
     is_Some (users db) ∧ user ≠ EmptyString ∧
     len user ≤ MaxKeySize ∧ len pass ≤ MaxValueSize) ∧
  (is_Some ((AddUser user pass db).1) → (AddUser user pass db).2 = db) ∧
  (is_Some (users db) → AddUser EmptyString pass db = (Some ErrKeyRequired, db)).
Proof.
  split_and!.
  - split.
    + unfold AddUser. tx_unfold.
      destruct (users db) as [ub|] eqn:Hub; cbn; [|done].
      destruct (Z.eqb_spec (len user) 0) as [|Hlen]; [done|].
      destruct (Z.ltb_spec MaxKeySize (len user)); [done|].
      destruct (Z.ltb_spec MaxValueSize (len pass)); [done|].
      intros _. split_and!; [done| |done..].
      intros Hempty. by apply Hlen, len_zero.
    + intros ([ub Hub] & Huser & Hkey & Hval).
      by rewrite (AddUser_ok user pass db ub).
  - unfold AddUser. tx_unfold.
    destruct (users db) as [ub|] eqn:Hub; cbn; [|done].
    destruct (len user =? 0); [done|].
    destruct (MaxKeySize <? len user); [done|].
    destruct (MaxValueSize <? len pass); [done|].
    rewrite Hub. cbn. by intros [? [=]].
  - intros [ub Hub]. unfold AddUser. tx_unfold. by rewrite Hub.
Qed.

(** X3. [DeleteUser user] on a store with its user bucket returns no
    error, whether a secret is stored for the user or not; nothing is
    stored for the user afterwards, the secrets of the other users
    are as they were, and when nothing was stored for the user the
    database is as it was. On a store that is not public, a
    credential [user:password] of a user whose name holds no colon
    is rejected afterwards, unless it is the administrator's. (The
    decoded credential is split at its first colon, so a name with a
    colon is never the user that [authenticate] looks up.) *)
Theorem DeleteUser_then_authenticate user db ub :
  users db = Some ub →
  ∃ db', DeleteUser user db = (None, db') ∧
    stored_secret db' user = None ∧
    (∀ other, other ≠ user → stored_secret db' other = stored_secret db other) ∧
    (stored_secret db user = None → db' = db) ∧
    (∀ payload password,
       IsPublic Config = false →
       ":"%char ∉ String.list_ascii_of_string user →
       base64_DecodeString payload = Some (user +:+ String ":" password) →
       ¬ (user = AdminUser Config ∧ password = AdminPass Config) →
       authenticate ("Basic " +:+ payload) db' = false).
Proof.
  intros Hub.
  eexists. split; [by apply DeleteUser_ok|].
  assert (∀ other,
    stored_secret
      (mkDB (Some (mkBucket (delete user (data ub)) (sequence ub)))
         (objects db) (locks db) (lockPaths db)) other
    = delete user (data ub) !! other) as Hsecret by done.
  split_and!.
  - by rewrite Hsecret, lookup_delete_eq.
  - intros other Hother. rewrite Hsecret, lookup_delete_ne by done.
    unfold stored_secret. by rewrite Hub.
  - unfold stored_secret. rewrite Hub. cbn. intros Hnone.
    rewrite delete_id by done. destruct db, ub; by simplify_eq/=.
  - intros payload password Hpublic Hcolon Hdecode Hadmin.
    rewrite (authenticate_decoded payload user password) by done.
    rewrite Hsecret, lookup_delete_eq. cbn [string_of default].
    rewrite (bool_decide_eq_false_2 (EmptyString ≠ EmptyString)) by tauto.
    rewrite orb_false_r. unfold checkBasicAuth. cbn [andb].
    apply andb_false_iff.
    destruct (decide (user = AdminUser Config));
      [right|left]; apply bool_decide_eq_false; tauto.
Qed.

Lemma key_lt_bytes_lt x y : key_lt x y → bytes_lt x.1 y.1.
Proof.
  unfold key_lt, key_le, String.le, bytes_lt, String.leb, String.ltb.
  intros [Hle Hne].
  destruct (String.compare x.1 y.1) eqn:Hcmp; [|done..].
  by apply String.compare_eq_iff in Hcmp.
Qed.

Lemma ForEach_loop_Users c users :
  ForEach_loop (λ k (_ : string) users, (users ++ [mkMetaUser k], None)) c users
  = (users ++ ((λ kv, mkMetaUser kv.1) <$> c), None).
Proof.
  revert users. induction c as [|[k v] c IH]; intros users; simpl.
  - by rewrite app_nil_r.
  - by rewrite IH, <- app_assoc.
Qed.

(** X4. On a store with its user bucket, [Users] returns no error and
    lists the users by ascending name: a name is listed exactly when
    a secret is stored for it, and no name is listed twice. *)
Theorem Users_lists_stored db ub :
  users db = Some ub →
  ∃ l, Users db = (l, None) ∧
    StronglySorted (λ a b, bytes_lt (Name a) (Name b)) l ∧
    ∀ name, mkMetaUser name ∈ l ↔ is_Some (stored_secret db name).
Proof.
  intros Hub. exists ((λ kv, mkMetaUser kv.1) <$> entries ub). split_and!.
  - unfold Users, ForEach. tx_unfold. rewrite Hub. cbn.
    by rewrite Hub, ForEach_loop_Users.
  - eapply (StronglySorted_fmap _ key_lt); [|apply entries_sorted].
    intros x y. apply key_lt_bytes_lt.
  - intros name. unfold stored_secret. rewrite Hub. cbn.
    rewrite list_elem_of_fmap. split.
    + intros ([k v] & [= ->] & Hin). apply elem_of_entries in Hin. by exists v.
    + intros [v Hv]. exists (name, v). split; [done|]. by apply elem_of_entries.
Qed.

(** ** Objects *)

Lemma ForEach_loop_Objects c l objects :
  Forall2 (λ kv (meta : MetaObject), gob_decode kv.2 = Some meta) c l →
  ForEach_loop Objects_fn c objects = (objects ++ l, None).
Proof.
  intros Hdecode. revert objects.
  induction Hdecode as [|[k v] meta c l Hmeta _ IH]; intros objects; simpl.
  - by rewrite app_nil_r.
  - unfold Objects_fn at 1. cbn in Hmeta. rewrite Hmeta.
    by rewrite IH, <- app_assoc.
Qed.

Lemma ForEach_loop_Objects_stop before k v after l objects :
  Forall2 (λ kv (meta : MetaObject), gob_decode kv.2 = Some meta) before l →
  gob_decode (A:=MetaObject) v = None →
  ForEach_loop Objects_fn (before ++ (k, v) :: after) objects
  = (objects ++ l, Some errDecode).
Proof.
  intros Hdecode Hv. revert objects.
  induction Hdecode as [|[k' v'] meta c l Hmeta _ IH]; intros objects; simpl.
  - unfold Objects_fn. by rewrite Hv, app_nil_r.
  - unfold Objects_fn at 1. cbn in Hmeta. rewrite Hmeta.
    by rewrite IH, <- app_assoc.
Qed.

Lemma Objects_run db ob :
  objects db = Some ob →
  Objects db = ((ForEach_loop Objects_fn (entries ob) []).1, None).
Proof.
  intros Hob. unfold Objects, ForEach. tx_unfold. rewrite Hob. cbn.
  rewrite Hob. by destruct (ForEach_loop _ _ _).
Qed.

(** X5. On a store whose object bucket holds encoded records only,
    [Objects] returns no error and one record for each stored pair, in
    the order of the keys: a record is returned exactly when it is
    stored, and as many records are returned as are stored. *)
Theorem Objects_lists_stored db :
  objects_well_formed db →
  ∃ ob l, objects db = Some ob ∧ Objects db = (l, None) ∧
    Forall2 (λ kv meta, kv.2 = gob_encode meta) (entries ob) l ∧
    length l = size (data ob) ∧
    ∀ meta, meta ∈ l ↔ ∃ oid, stored_object db oid = Some (gob_encode meta).
Proof.
  intros (ob & Hob & Hwf). exists ob.
  assert (Forall (λ kv, ∃ meta : MetaObject, kv.2 = gob_encode meta) (entries ob))
    as Hall.
  { apply Forall_forall. intros [k v] Hin. apply elem_of_entries in Hin.
    by apply (Hwf k v). }
  assert (∃ l, Forall2 (λ kv (meta : MetaObject), kv.2 = gob_encode meta)
                 (entries ob) l) as [l Hl].
  { induction Hall as [|kv c [meta Hmeta] _ [l Hl]]; [by exists []|].
    exists (meta :: l). by constructor. }
  exists l. split_and!; [done| |done| |].
  - rewrite (Objects_run db ob) by done.
    rewrite (ForEach_loop_Objects _ l); [done|].
    eapply Forall2_impl; [exact Hl|]. intros kv meta ->. apply gob_round_trip.
  - rewrite <- (Forall2_length _ _ _ Hl). unfold entries.
    by rewrite merge_sort_Permutation, length_map_to_list.
  - intros meta. unfold stored_object. rewrite Hob. cbn. split.
    + intros Hin. apply list_elem_of_lookup in Hin as [i Hi].
      destruct (Forall2_lookup_r _ _ _ _ _ Hl Hi) as ([k v] & Hkv & Hv).
      exists k. cbn in Hv. subst v. apply elem_of_entries.
      by eapply list_elem_of_lookup_2.
    + intros [oid Hoid]. apply elem_of_entries in Hoid.
      apply list_elem_of_lookup in Hoid as [i Hi].
      destruct (Forall2_lookup_l _ _ _ _ _ Hl Hi) as (meta' & Hmeta' & Heq).
      cbn in Heq. apply gob_encode_inj in Heq as ->.
      by eapply list_elem_of_lookup_2.
Qed.

(** X6. [Objects] reports no decoding error. On a store with its
    object bucket it returns no error whatever the bucket holds; when
    the value of a pair does not decode, the records it returns are
    those of the pairs before that one in the order of the keys, and
    the pairs after it are left out. *)
Theorem Objects_stops_silently db ob :
  objects db = Some ob →
  (Objects db).2 = None ∧
  ∀ before k v after l,
    entries ob = before ++ (k, v) :: after →
    Forall2 (λ kv (meta : MetaObject), gob_decode kv.2 = Some meta) before l →
    gob_decode (A:=MetaObject) v = None →
    Objects db = (l, None).
Proof.
  intros Hob. rewrite (Objects_run db ob) by done. split; [done|].
  intros before k v after l -> Hbefore Hv.
  by rewrite (ForEach_loop_Objects_stop before k v after l).
Qed.

Lemma Delete_ok v db ob :
  authenticate (vAuthorization v) db = true → objects db = Some ob →
  Delete v db
  = (None, mkDB (users db)
             (Some (mkBucket (delete (vOid v) (data ob)) (sequence ob)))
             (locks db) (lockPaths db)).
Proof.
  intros Hauth Hob. unfold Delete. rewrite Hauth. cbn [negb]. tx_unfold.
  rewrite Hob. cbn. by rewrite Hob.
Qed.

Lemma Put_new v db ob :
  authenticate (vAuthorization v) db = true → objects db = Some ob →
  data ob !! vOid v = None →
  vOid v ≠ EmptyString → len (vOid v) ≤ MaxKeySize →
  let meta := mkMetaObject (vOid v) (vSize v) false in
  len (gob_encode meta) ≤ MaxValueSize →
  Put v db
  = ((Some meta, None),
     mkDB (users db)
       (Some (mkBucket (<[vOid v := gob_encode meta]> (data ob)) (sequence ob)))
       (locks db) (lockPaths db)).
Proof.
  intros Hauth Hob Hnone Hoid Hkey meta Hval.
  unfold Put, Get. rewrite Hauth. cbn [negb].
  rewrite (UnsafeGet_not_found v db ob) by done. tx_unfold.
  rewrite Hob. cbn. fold meta.
  assert ((len (vOid v) =? 0) = false) as ->.
  { apply Z.eqb_neq. by rewrite len_zero. }
  rewrite (proj2 (Z.ltb_ge _ _) Hkey), (proj2 (Z.ltb_ge _ _) Hval).
  by rewrite Hob.
Qed.

(** X7. For a credential accepted by [authenticate], on a store with
    its object bucket: [Delete] returns no error, whether a record is
    stored for the oid or not; a [Get] for the oid then returns
    [errObjectNotFound]; the records of the other oids are as they
    were; and when nothing was stored for the oid the database is as
    it was. *)
Theorem Delete_then_Get v db ob :
  authenticate (vAuthorization v) db = true →
  objects db = Some ob →
  ∃ db', Delete v db = (None, db') ∧
    Get v db' = (None, Some errObjectNotFound) ∧
    (∀ oid, oid ≠ vOid v → stored_object db' oid = stored_object db oid) ∧
    (stored_object db (vOid v) = None → db' = db).
Proof.
  intros Hauth Hob. eexists. split; [by apply Delete_ok|]. split_and!.
  - unfold Get. rewrite <- (authenticate_users _ db) by done.
    rewrite Hauth. cbn [negb].
    eapply UnsafeGet_not_found; [done|]. cbn [data]. apply lookup_delete_eq.
  - intros oid Hoid. unfold stored_object. rewrite Hob. cbn.
    by rewrite lookup_delete_ne.
  - unfold stored_object. rewrite Hob. cbn. intros Hnone.
    rewrite delete_id by done. destruct db, ob; by simplify_eq/=.
Qed.

(** X8. [Delete] undoes [Put]. For a credential accepted by
    [authenticate] and an oid for which nothing is stored and which
    the engine takes as a key, [Put] stores a record and a [Delete] for
    the same request then returns no error and leaves the database as
    it was before the [Put]. *)
Theorem Put_then_Delete v db ob :
  authenticate (vAuthorization v) db = true →
  objects db = Some ob →
  data ob !! vOid v = None →
  vOid v ≠ EmptyString → len (vOid v) ≤ MaxKeySize →
  len (gob_encode (mkMetaObject (vOid v) (vSize v) false)) ≤ MaxValueSize →
  ∃ db', Put v db = ((Some (mkMetaObject (vOid v) (vSize v) false), None), db') ∧
    stored_object db' (vOid v)
      = Some (gob_encode (mkMetaObject (vOid v) (vSize v) false)) ∧
    Delete v db' = (None, db).
Proof.
  intros Hauth Hob Hnone Hoid Hkey Hval.
  eexists. split; [by apply (Put_new v db ob)|]. split.
  - unfold stored_object. cbn. apply lookup_insert_eq.
  - erewrite Delete_ok; [|by rewrite <- (authenticate_users _ db)|done].
    cbn [users objects locks lockPaths data sequence].
    rewrite delete_insert_id by done. destruct db, ob; by simplify_eq/=.
Qed.

(** ** Opening a store, and what calls leave alone *)

(** X9. [NewMetaStore] on a database file, new or not, leaves a store
    with its four buckets: a bucket of the file is kept with what it
    holds, a missing one is created empty. On a new file the store is
    the empty one, and opening the file of a store a second time
    changes nothing. *)
Theorem NewMetaStore_at_keeps dbFile :
  has_buckets (NewMetaStore_at dbFile) ∧
  (∀ n, bucket n (NewMetaStore_at dbFile)
        = Some (default emptyBucket (bucket n dbFile))) ∧
  NewMetaStore_at newFile = NewMetaStore ∧
  NewMetaStore_at (NewMetaStore_at dbFile) = NewMetaStore_at dbFile.
Proof.
  destruct dbFile as [[ub|] [ob|] [lb|] [pb|]];
    (split_and!; [repeat split; by eexists|by intros []|done..]).
Qed.

Lemma UnsafeGet_objects v db db' :
  objects db = objects db' → UnsafeGet v db = UnsafeGet v db'.
Proof.
  intros Hob. unfold UnsafeGet. tx_unfold. rewrite <- Hob.
  destruct (objects db) as [ob|] eqn:Hob'; cbn; [|done].
  rewrite <- Hob, Hob'. destruct (_ =? 0); [done|].
  by destruct (gob_decode _).
Qed.

Lemma Get_users_objects v db db' :
  users db = users db' → objects db = objects db' → Get v db = Get v db'.
Proof.
  intros Hub Hob. unfold Get.
  by rewrite (authenticate_users _ db db'), (UnsafeGet_objects v db db').
Qed.

Lemma Users_users db db' : users db = users db' → Users db = Users db'.
Proof.
  intros Hub. unfold Users, ForEach. tx_unfold. rewrite <- Hub.
  destruct (users db) as [ub|] eqn:Hub'; cbn; [|done].
  rewrite <- Hub, Hub'. by destruct (ForEach_loop _ _ _).
Qed.

Lemma Objects_objects db db' : objects db = objects db' → Objects db = Objects db'.
Proof.
  intros Hob. unfold Objects, ForEach. tx_unfold. rewrite <- Hob.
  destruct (objects db) as [ob|] eqn:Hob'; cbn; [|done].
  rewrite <- Hob, Hob'. by destruct (ForEach_loop _ _ _).
Qed.

Lemma LockList_locks matchpath cursor limit db db' :
  locks db = locks db' →
  LockList matchpath cursor limit db = LockList matchpath cursor limit db'.
Proof.
  intros Hlb. unfold LockList. tx_unfold. rewrite <- Hlb.
  destruct (locks db) as [lb|] eqn:Hlb'; cbn; [|done].
  rewrite <- Hlb, Hlb'. by destruct (LockList_loop _ _ _ _) as [err|[l pending]].
Qed.

Lemma apply_op_users_objects o db :
  users (apply_op o db).2 = users db ∧ objects (apply_op o db).2 = objects db.
Proof.
  destruct o as [filepath owner now|id owner force]; cbn [apply_op].
  - destruct (LockAdd filepath owner now db) as [r db'] eqn:Hrun.
    apply LockAdd_inv in Hrun as [[-> _]|(lb & pb & _ & _ & _ & _ & Hrun)];
      [done|]. by destruct Hrun as [_ ->].
  - destruct (LockDelete id owner force db) as [r db'] eqn:Hrun.
    apply LockDelete_inv in Hrun
      as [[-> _]|(lb & pb & v & meta & _ & _ & _ & _ & _ & _ & ->)]; done.
Qed.

Lemma run_users_objects ops db :
  users (run ops db).2 = users db ∧ objects (run ops db).2 = objects db.
Proof.
  revert db. induction ops as [|o ops IH]; intros db; [done|].
  cbn [run]. pose proof (apply_op_users_objects o db) as [Hub Hob].
  destruct (apply_op o db) as [r db1]. specialize (IH db1).
  destruct (run ops db1) as [log db2]. cbn [snd] in *.
  destruct IH as [-> ->]. done.
Qed.

(** X10. The lock calls stay inside the lock buckets. After any
    sequence of [LockAdd] and [LockDelete] calls the user and object
    buckets are as before, so [authenticate], [Get], [Users] and
    [Objects] return what they returned before. *)
Theorem lock_calls_leave_users_and_objects ops db :
  users (run ops db).2 = users db ∧
  objects (run ops db).2 = objects db ∧
  (∀ authorization,
     authenticate authorization (run ops db).2 = authenticate authorization db) ∧
  (∀ v, Get v (run ops db).2 = Get v db) ∧
  Users (run ops db).2 = Users db ∧
  Objects (run ops db).2 = Objects db.
Proof.
  destruct (run_users_objects ops db) as [Hub Hob]. split_and!; [done..| | | |].
  - intros authorization. by apply authenticate_users.
  - intros v. by apply Get_users_objects.
  - by apply Users_users.
  - by apply Objects_objects.
Qed.

Lemma write_call_leaves_locks c db :
  match c with
  | CallPut _ | CallDelete _ | CallAddUser _ _ | CallDeleteUser _ => True
  | _ => False
  end →
  locks (call c db).2 = locks db ∧ lockPaths (call c db).2 = lockPaths db.
Proof.
  intros Hc.
  destruct c as [v|v|v|user pass|user| | |filepath owner now|id owner force|
                 matchpath cursor limit]; try done; clear Hc; cbn [call].
  - unfold Put. destruct (negb _); [done|].
    destruct (Get v db) as [[meta|] [err|]]; try done; tx_unfold;
      destruct (objects db) as [ob|] eqn:Hob; cbn; try done;
      repeat (destruct (_ =? _)%Z || destruct (_ <? _)%Z; try done);
      by rewrite Hob.
  - unfold Delete. destruct (negb _); [done|]. tx_unfold.
    destruct (objects db) as [ob|] eqn:Hob; cbn; [|done]. by rewrite Hob.
  - unfold AddUser. tx_unfold.
    destruct (users db) as [ub|] eqn:Hub; cbn; [|done].
    repeat (destruct (_ =? _)%Z || destruct (_ <? _)%Z; try done).
    by rewrite Hub.
  - unfold DeleteUser. tx_unfold.
    destruct (users db) as [ub|] eqn:Hub; cbn; [|done]. by rewrite Hub.
Qed.

(** X11. The object and user calls stay outside the lock buckets.
    [Put], [Delete], [AddUser] and [DeleteUser] leave the two lock
    buckets, the sequence of ids included, as they were, so
    [LockList] returns what it returned before. *)
Theorem object_and_user_calls_leave_locks c db :
  match c with
  | CallPut _ | CallDelete _ | CallAddUser _ _ | CallDeleteUser _ => True
  | _ => False
  end →
  locks (call c db).2 = locks db ∧
  lockPaths (call c db).2 = lockPaths db ∧
  ∀ matchpath cursor limit,
    LockList matchpath cursor limit (call c db).2
    = LockList matchpath cursor limit db.
Proof.
  intros Hc. destruct (write_call_leaves_locks c db Hc) as [Hlb Hpb].
  by auto using LockList_locks.
Qed.

Lemma LockList_loop_error matchpath c limit locks err :
  LockList_loop matchpath c limit locks = inl err → err = errDecode.
Proof.
  revert limit locks. induction c as [|[k v] c IH]; intros limit locks; simpl.
  - done.
  - destruct (0 <? limit); [|done].
    destruct (gob_decode v) as [meta|]; [|by intros [= <-]].
    destruct (keeps matchpath meta); apply IH.
Qed.

Lemma call_keeps_buckets c db :
  has_buckets db →
  has_buckets (call c db).2 ∧ (call c db).1 ≠ Some errNoBucket.
Proof.
  intros ([ub Hub] & [ob Hob] & [lb Hlb] & [pb Hpb]).
  destruct db as [u o l p]. cbn in Hub, Hob, Hlb, Hpb. subst u o l p.
  assert (∀ ub ob lb pb,
    has_buckets (mkDB (Some ub) (Some ob) (Some lb) (Some pb))) as Hdb.
  { intros. repeat split; by eexists. }
  destruct c as [v|v|v|user pass|user| | |filepath owner now|id owner force|
                 matchpath cursor limit]; cbn [call].
  - split; [done|]. unfold Get, UnsafeGet. destruct (negb _); [done|].
    tx_unfold. cbn. destruct (_ =? 0); [done|]. by destruct (gob_decode _).
  - unfold Put. destruct (negb _); [done|].
    destruct (Get v _) as [[meta|] [err|]]; [|done|..]; tx_unfold; cbn;
      (destruct (_ =? 0); [done|]); (destruct (_ <? _); [done|]);
      by destruct (_ <? _).
  - unfold Delete. destruct (negb _); [done|]. tx_unfold. by cbn.
  - unfold AddUser. tx_unfold. cbn.
    destruct (_ =? 0); [done|]. destruct (_ <? _); [done|].
    by destruct (_ <? _).
  - unfold DeleteUser. tx_unfold. by cbn.
  - split; [done|]. unfold Users, ForEach. tx_unfold. cbn.
    by destruct (ForEach_loop _ _ _).
  - split; [done|]. unfold Objects, ForEach. tx_unfold. cbn.
    by destruct (ForEach_loop _ _ _).
  - unfold LockAdd. tx_unfold. cbn.
    destruct (negb _); cbn; [done|].
    destruct (_ =? 0); [done|]. destruct (_ <? _); [done|].
    destruct (_ <? _); [done|]. cbn.
    destruct (_ =? 0); [done|]. by destruct (_ <? _).
  - unfold LockDelete. tx_unfold. cbn.
    destruct (_ =? 0); [done|]. destruct (gob_decode _) as [meta|]; [|done].
    by destruct (_ && _).
  - split; [done|]. unfold LockList. tx_unfold. cbn.
    destruct (LockList_loop _ _ _ _) as [err|[locks pending]] eqn:Hloop;
      [|done].
    apply LockList_loop_error in Hloop as ->. done.
Qed.

(** X12. A store opened by [NewMetaStore] has its four buckets after
    any sequence of calls, and no call on it returns [errNoBucket]. *)
Theorem calls_keep_buckets cs dbFile :
  has_buckets (calls cs (NewMetaStore_at dbFile)) ∧
  ∀ c, (call c (calls cs (NewMetaStore_at dbFile))).1 ≠ Some errNoBucket.
Proof.
  assert (has_buckets (NewMetaStore_at dbFile)) as Hdb.
  { destruct dbFile as [[ub|] [ob|] [lb|] [pb|]]; repeat split; by eexists. }
  revert Hdb. generalize (NewMetaStore_at dbFile).
  induction cs as [|c cs IH]; intros db Hdb; cbn [calls].
  - split; [done|]. intros c. by apply call_keeps_buckets.
  - apply IH. by apply call_keeps_buckets.
Qed.

(** X13. A call that returns an error has changed nothing: whatever
    the call and the database, when [Put], [Delete], [AddUser],
    [DeleteUser], [LockAdd] or [LockDelete] returns an error, the
    database, the sequence of ids included, is as it was before the
    call. *)
Theorem failed_call_changes_nothing c db :
  is_Some (call c db).1 → (call c db).2 = db.
Proof.
  destruct c as [v|v|v|user pass|user| | |filepath owner now|id owner force|
                 matchpath cursor limit]; cbn [call]; try done.
  - unfold Put. destruct (negb _); [done|].
    destruct (Get v db) as [[meta|] [err|]]; [|done|..]; tx_unfold;
      (destruct (objects db) as [ob|] eqn:Hob; cbn; [|done]);
      (destruct (_ =? 0); [done|]); (destruct (_ <? _); [done|]);
      (destruct (_ <? _); [done|]); rewrite Hob; cbn; by intros [? [=]].
  - unfold Delete. destruct (negb _); [done|]. tx_unfold.
    destruct (objects db) as [ob|] eqn:Hob; cbn; [|done].
    rewrite Hob. cbn. by intros [? [=]].
  - unfold AddUser. tx_unfold.
    destruct (users db) as [ub|] eqn:Hub; cbn; [|done].
    destruct (_ =? 0); [done|]. destruct (_ <? _); [done|].
    destruct (_ <? _); [done|]. rewrite Hub. cbn. by intros [? [=]].
  - unfold DeleteUser. tx_unfold.
    destruct (users db) as [ub|] eqn:Hub; cbn; [|done].
    rewrite Hub. cbn. by intros [? [=]].
  - destruct (LockAdd filepath owner now db) as [r db'] eqn:Hrun. cbn.
    apply LockAdd_inv in Hrun as [[-> _]|(lb & pb & _ & _ & _ & _ & Hrun)];
      [done|]. destruct Hrun as [-> _]. by intros [? [=]].
  - destruct (LockDelete id owner force db) as [r db'] eqn:Hrun. cbn.
    apply LockDelete_inv in Hrun
      as [[-> _]|(lb & pb & v & meta & _ & _ & _ & _ & _ & -> & _)]; [done|].
    by intros [? [=]].
Qed.

(** ** Taking and releasing a lock *)

(** X14. Releasing a lock undoes taking it. On a store reached before
    the sequence of ids wraps, when [LockAdd] creates a lock, a
    [LockDelete] of its id by its owner returns that lock and leaves
    the two lock buckets with the pairs they held before the
    [LockAdd]; only the sequence of ids has advanced by one. *)
Theorem LockAdd_then_LockDelete filepath owner now force db lb pb meta db1 :
  store_inv db →
  locks db = Some lb → lockPaths db = Some pb →
  sequence pb + 1 < two64 →
  LockAdd filepath owner now db = ((Some meta, None), db1) →
  meta = mkMetaLock (sequence pb + 1) filepath owner now ∧
  LockDelete (ID meta) owner force db1
  = ((Some meta, None),
     mkDB (users db) (objects db) (Some lb)
       (Some (mkBucket (data pb) (sequence pb + 1)))).
Proof.
  intros (lb' & pb' & Hlb' & Hpb' & Hseq & Hl & Hp) Hlb Hpb Hnext Hadd.
  rewrite Hlb in Hlb'. rewrite Hpb in Hpb'. injection Hlb' as <-.
  injection Hpb' as <-.
  apply LockAdd_inv in Hadd as [[_ [? [=]]]|(lb' & pb' & Hlb' & Hpb' & Hfree & _ & Hadd)].
  rewrite Hlb in Hlb'. rewrite Hpb in Hpb'. injection Hlb' as <-.
  injection Hpb' as <-. destruct Hadd as [[= ->] ->].
  assert (uint64 (sequence pb + 1) = sequence pb + 1) as Hid.
  { unfold uint64. apply Z.mod_small. lia. }
  rewrite Hid. split; [done|].
  assert (data pb !! filepath = None) as Hpath.
  { destruct (data pb !! filepath) as [v|] eqn:Hv; [|done].
    destruct (Hp _ _ Hv) as (m & _ & -> & _).
    by destruct (len_bytes_encode_ne m). }
  assert (data lb !! itob (sequence pb + 1) = None) as Hfresh.
  { destruct (data lb !! itob (sequence pb + 1)) as [v|] eqn:Hv; [|done].
    destruct (Hl _ _ Hv) as (m & Hkey & _ & Hrange & _).
    apply itob_inj in Hkey; lia. }
  cbn [ID].
  erewrite (LockDelete_ok _ _ _ _ _ _
              (mkMetaLock (sequence pb + 1) filepath owner now));
    [|done|done|apply lookup_insert_eq|by right].
  cbn [users objects locks lockPaths data sequence ID Path].
  rewrite !delete_insert_id by done. by destruct lb.
Qed.

Lemma LockAdd_not_duplicate filepath owner now db pb :
  lockPaths db = Some pb → data pb !! filepath = None →
  (LockAdd filepath owner now db).1.2 ≠ Some errDuplicateObject.
Proof.
  intros Hpb Hfree. unfold LockAdd. tx_unfold. rewrite Hpb. cbn.
  rewrite Hpb, Hfree, len_bytes_None. cbn. rewrite Hpb. cbn.
  destruct (locks db) as [lb|] eqn:Hlb; cbn; [|done].
  rewrite len_itob. cbn. destruct (MaxValueSize <? _); [done|]. cbn.
  destruct (len filepath =? 0); [done|].
  by destruct (MaxKeySize <? len filepath).
Qed.

(** X15. After a successful [LockDelete] the lock is gone from both
    buckets: a second [LockDelete] of the id, by anyone and forced or
    not, returns [errObjectNotFound] and changes nothing, and a
    [LockAdd] for the path of the lock does not fail with
    [errDuplicateObject]. *)
Theorem LockDelete_frees_path id owner force db meta db' :
  LockDelete id owner force db = ((Some meta, None), db') →
  stored_lock db' id = None ∧
  (∀ owner' force',
     LockDelete id owner' force' db' = ((None, Some errObjectNotFound), db')) ∧
  (∀ owner' now,
     (LockAdd (Path meta) owner' now db').1.2 ≠ Some errDuplicateObject).
Proof.
  intros Hdel.
  apply LockDelete_inv in Hdel
    as [[_ [? [=]]]|(lb & pb & v & meta' & Hlb & Hpb & _ & _ & _ & [= <-] & ->)].
  split_and!.
  - unfold stored_lock. cbn. apply lookup_delete_eq.
  - intros owner' force'. eapply LockDelete_not_found; [done|].
    cbn [data]. apply lookup_delete_eq.
  - intros owner' now. eapply LockAdd_not_duplicate; [done|].
    cbn [data]. apply lookup_delete_eq.
Qed.

(** X16. [LockAdd] takes no path the engine refuses as a key. For an
    empty path, or one above [MaxKeySize] bytes, that is not in the
    path bucket, [LockAdd] returns no lock and an error of the engine,
    [ErrValueTooLarge] when the encoded lock is too large and
    otherwise [ErrKeyRequired], respectively [ErrKeyTooLarge]; the
    database is as before, the id drawn from the sequence included. *)
Theorem LockAdd_rejects_bad_path filepath owner now db lb pb :
  locks db = Some lb → lockPaths db = Some pb →
  data pb !! filepath = None →
  filepath = EmptyString ∨ MaxKeySize < len filepath →
  let meta := mkMetaLock (uint64 (sequence pb + 1)) filepath owner now in
  LockAdd filepath owner now db
  = ((None, Some (if MaxValueSize <? len (gob_encode meta) then ErrValueTooLarge
                  else if bool_decide (filepath = EmptyString) then ErrKeyRequired
                  else ErrKeyTooLarge)), db).
Proof.
  intros Hlb Hpb Hfree Hbad meta. unfold LockAdd. tx_unfold. rewrite Hpb. cbn.
  rewrite Hpb, Hfree, len_bytes_None. cbn. rewrite Hpb. cbn. rewrite Hlb. cbn.
  rewrite len_itob. fold meta. cbn.
  destruct (MaxValueSize <? len (gob_encode meta)); [done|]. cbn.
  destruct (Z.eqb_spec (len filepath) 0) as [Hzero|Hzero].
  - apply len_zero in Hzero.
    rewrite (bool_decide_eq_true_2 (filepath = EmptyString)) by done.
    cbn. by case_bool_decide.
  - rewrite (bool_decide_eq_false_2 (filepath = EmptyString))
      by (by rewrite <- len_zero).
    destruct Hbad as [->|Hlong]; [done|].
    rewrite (proj2 (Z.ltb_lt _ _) Hlong). cbn. by case_bool_decide.
Qed.

(** ** Pages of [LockList] *)

Lemma filter_split {A : Type} (P : A → Prop) `{!∀ x, Decision (P x)} l n :
  (n < length (filter P l))%nat →
  ∃ visited rest, l = visited ++ rest ∧ rest ≠ [] ∧
    length (filter P visited) = n.
Proof.
  revert n. induction l as [|x l IH]; intros n Hn; [simpl in Hn; lia|].
  destruct n as [|n]; [by exists [], (x :: l)|].
  destruct (decide (P x)) as [HP|HP].
  - rewrite filter_cons_True in Hn by done. simpl in Hn.
    destruct (IH n) as (visited & rest & -> & Hrest & Hlen); [lia|].
    exists (x :: visited), rest. rewrite filter_cons_True by done.
    simpl. by rewrite Hlen.
  - rewrite filter_cons_False in Hn by done.
    destruct (IH (S n)) as (visited & rest & -> & Hrest & Hlen); [lia|].
    exists (x :: visited), rest. by rewrite filter_cons_False.
Qed.

Lemma filter_last_split {A : Type} (P : A → Prop) `{!∀ x, Decision (P x)} l x :
  last (filter P l) = Some x →
  ∃ before after, l = before ++ x :: after ∧ filter P after = [].
Proof.
  induction l as [|y l IH] using rev_ind; [done|].
  rewrite filter_app. destruct (decide (P y)) as [HP|HP].
  - rewrite (filter_cons_True P y []) by done. rewrite filter_nil, last_snoc.
    intros [= ->]. by exists l, [].
  - rewrite (filter_cons_False P y []) by done. rewrite filter_nil, app_nil_r.
    intros (before & after & -> & Hafter)%IH.
    exists before, (after ++ [y]). rewrite <- app_assoc. split; [done|].
    by rewrite filter_app, Hafter, filter_cons_False.
Qed.

(** X17. On a well-formed store, when [LockList] reports
    [hasMore = false] nothing was left out: the locks returned are all
    the locks with an id of at least [cursor] that are accepted by the
    pattern, and the cursor returned is the one supplied. *)
Theorem LockList_complete matchpath cursor limit db locks next :
  locks_well_formed db → 0 ≤ cursor < two64 →
  LockList matchpath cursor limit db = (locks, next, false, None) →
  next = cursor ∧
  ∃ l, listed_from db cursor l ∧ locks = filter (accepted matchpath) l.
Proof.
  intros Hwf Hcursor Hlist.
  destruct (LockList_run matchpath cursor limit db Hwf) as (pending & Hrun & Hp).
  rewrite Hrun in Hlist. injection Hlist as Hlocks Hnext ->.
  cbn [andb] in Hnext. split; [done|].
  exists (locks_from db cursor). split; [by apply locks_from_listed|].
  rewrite <- Hlocks. apply take_ge.
  destruct (decide (length (filter (accepted matchpath) (locks_from db cursor))
                    ≤ Z.to_nat (clamp_limit limit))%nat) as [|Hmore]; [done|].
  destruct (filter_split (accepted matchpath) (locks_from db cursor)
              (Z.to_nat (clamp_limit limit)))
    as (visited & rest & Hl & Hrest & Hlen); [lia|].
  pose proof (clamp_limit_range limit).
  assert (false = true) as Habsurd; [|done].
  apply Hp. exists visited, rest. split_and!; [done..|lia].
Qed.

(** X18. Following the cursor loses and repeats nothing. On a
    well-formed store, when [LockList] returns a page with
    [hasMore = true], the call with the cursor returned succeeds and
    its page continues the first one: the two pages together are the
    first locks, by ascending id, of those with an id of at least the
    first cursor that the pattern accepts, as many as the two clamped
    limits add up to. When both limits are at least 1 and add up to at
    most 100, the two pages together are the page of one call with the
    sum of the limits. *)
Theorem LockList_next_page matchpath cursor limit limit2 db locks1 next :
  locks_well_formed db → 0 ≤ cursor < two64 →
  LockList matchpath cursor limit db = (locks1, next, true, None) →
  ∃ l locks2 next2 pending2,
    listed_from db cursor l ∧
    LockList matchpath next limit2 db = (locks2, next2, pending2, None) ∧
    locks1 ++ locks2
    = take (Z.to_nat (clamp_limit limit) + Z.to_nat (clamp_limit limit2))
        (filter (accepted matchpath) l) ∧
    (1 ≤ limit → 1 ≤ limit2 → limit + limit2 ≤ 100 →
     (LockList matchpath cursor (limit + limit2) db).1.1.1 = locks1 ++ locks2).
Proof.
  intros Hwf Hcursor Hlist.
  destruct (LockList_run matchpath cursor limit db Hwf) as (pending & Hrun & Hp).
  rewrite Hrun in Hlist. injection Hlist as Hlocks Hnext ->.
  rewrite Hlocks in Hnext. cbn [andb] in Hnext.
  destruct (proj1 Hp eq_refl) as (visited & rest & Hl & Hrest & Hlen).
  pose proof (locks_from_listed db cursor Hwf Hcursor) as [Hsorted Hmem].
  pose proof (clamp_limit_range limit) as Hclamp.
  assert (filter (accepted matchpath) visited = locks1) as Hvisited.
  { rewrite <- Hlocks, Hl, filter_app, take_app_length'; [done|lia]. }
  destruct (last locks1) as [meta|] eqn:Hlast.
  2: { apply last_None in Hlast. rewrite Hvisited, Hlast in Hlen.
       simpl in Hlen. lia. }
  pose proof Hlast as Hsplit. rewrite <- Hvisited in Hsplit.
  apply filter_last_split in Hsplit as (before & after & Hbefore & Hafter).
  apply last_Some in Hlast as [locks' Hlocks'].
  rewrite Hlocks', last_last, length_app in Hnext. simpl in Hnext.
  rewrite bool_decide_eq_true_2 in Hnext by lia.
  destruct rest as [|r rest]; [done|]. clear Hrest.
  set (further := after ++ r :: rest).
  assert (locks_from db cursor = before ++ meta :: further) as Hl'.
  { rewrite Hl, Hbefore, <- app_assoc. done. }
  rewrite Hl' in Hsorted.
  pose proof (StronglySorted_app_1_r _ _ _ Hsorted) as Hfurther.
  apply StronglySorted_cons in Hfurther as [Hgreater Hfurther].
  rewrite Forall_forall in Hgreater.
  assert (in_locks db meta ∧ cursor ≤ ID meta) as [Hin1 Hfirst].
  { apply Hmem. rewrite Hl'. apply elem_of_app. right. left. }
  assert (in_locks db r) as Hin2.
  { apply Hmem. rewrite Hl'. apply elem_of_app. right. right.
    apply elem_of_app. right. left. }
  pose proof (in_locks_range db meta Hwf Hin1) as Hrange1.
  pose proof (in_locks_range db r Hwf Hin2) as Hrange2.
  assert (ID meta < ID r) as Hlt.
  { apply Hgreater, elem_of_app. right. left. }
  assert (uint64 (ID meta + 1) = ID meta + 1) as Hid.
  { unfold uint64. apply Z.mod_small. lia. }
  rewrite Hid in Hnext. subst next.
  assert (listed_from db (ID meta + 1) further) as Hlisted.
  { split; [done|]. intros m. split.
    - intros Hm. specialize (Hgreater m Hm).
      assert (m ∈ locks_from db cursor) as Hm'.
      { rewrite Hl'. apply elem_of_app. right. by right. }
      apply Hmem in Hm' as [Hin _]. split; [done|lia].
    - intros [Hin Hge].
      assert (m ∈ locks_from db cursor) as Hm.
      { apply Hmem. split; [done|lia]. }
      rewrite Hl' in Hm. apply elem_of_app in Hm as [Hm|Hm].
      + pose proof (StronglySorted_app_1_elem_of _ _ _ m meta Hsorted Hm
                      ltac:(left)) as Hless. simpl in Hless. lia.
      + apply elem_of_cons in Hm as [->|Hm]; [lia|done]. }
  assert (0 ≤ ID meta + 1 < two64) as Hnext by lia.
  pose proof (listed_from_unique _ _ _ _
                (locks_from_listed db (ID meta + 1) Hwf Hnext) Hlisted) as Hfrom.
  destruct (LockList_run matchpath (ID meta + 1) limit2 db Hwf)
    as (pending2 & Hrun2 & _).
  rewrite Hfrom in Hrun2.
  eexists (locks_from db cursor), _, _, pending2.
  split; [by apply locks_from_listed|]. split; [exact Hrun2|].
  assert (locks1 ++ take (Z.to_nat (clamp_limit limit2))
                      (filter (accepted matchpath) further)
          = take (Z.to_nat (clamp_limit limit) + Z.to_nat (clamp_limit limit2))
              (filter (accepted matchpath) (locks_from db cursor))) as Hpages.
  { rewrite Hl, filter_app, take_app_add' by lia. rewrite Hvisited.
    f_equal. unfold further. by rewrite filter_app, Hafter. }
  split; [done|]. intros Hone Htwo Hsum.
  destruct (LockList_run matchpath cursor (limit + limit2) db Hwf)
    as (pending3 & Hrun3 & _).
  rewrite Hrun3, Hpages. cbn [fst]. f_equal. unfold clamp_limit. lia.
Qed.

(** ** What every call keeps *)

Lemma call_well_formed c db :
  locks_well_formed db → locks_well_formed (call c db).2.
Proof.
  intros Hwf.
  assert (∀ db', locks db' = locks db → lockPaths db' = lockPaths db →
                 locks_well_formed db') as Hframe.
  { intros db' Hlb Hpb. unfold locks_well_formed. by rewrite Hlb, Hpb. }
  destruct c as [v|v|v|user pass|user| | |filepath owner now|id owner force|
                 matchpath cursor limit]; try done;
    try (by apply Hframe; apply write_call_leaves_locks).
  - pose proof (apply_op_well_formed (OpLockAdd filepath owner now) db Hwf) as H.
    cbn [apply_op call] in *. by destruct (LockAdd filepath owner now db).
  - pose proof (apply_op_well_formed (OpLockDelete id owner force) db Hwf) as H.
    cbn [apply_op call] in *. by destruct (LockDelete id owner force db).
Qed.

Lemma calls_well_formed cs : locks_well_formed (calls cs NewMetaStore).
Proof.
  generalize (store_inv_well_formed _ store_inv_NewMetaStore).
  generalize NewMetaStore.
  induction cs as [|c cs IH]; intros db Hwf; [done|].
  cbn [calls]. by apply IH, call_well_formed.
Qed.

(** X22. Whatever calls are made on a new store, every pair of the
    id-indexed lock bucket stays a lock stored under its own id, also
    after the sequence of ids has wrapped; so [LockList] never returns
    an error on such a store. *)
Theorem calls_keep_locks_well_formed cs :
  locks_well_formed (calls cs NewMetaStore) ∧
  ∀ matchpath cursor limit,
    (LockList matchpath cursor limit (calls cs NewMetaStore)).2 = None.
Proof.
  pose proof (calls_well_formed cs) as Hwf.
  split; [done|]. intros matchpath cursor limit.
  destruct (LockList_run matchpath cursor limit _ Hwf) as (pending & -> & _).
  done.
Qed.

Lemma call_objects_inv c db : objects_inv db → objects_inv (call c db).2.
Proof.
  intros (ob & Hob & Hinv).
  assert (∀ db', objects db' = objects db → objects_inv db') as Hframe.
  { intros db' Hob'. exists ob. by rewrite Hob', Hob. }
  destruct c as [v|v|v|user pass|user| | |filepath owner now|id owner force|
                 matchpath cursor limit]; cbn [call];
    try (by apply Hframe).
  - assert (objects_inv
              (mkDB (users db)
                 (Some (mkBucket
                    (<[vOid v := gob_encode (mkMetaObject (vOid v) (vSize v) false)]>
                       (data ob)) (sequence ob)))
                 (locks db) (lockPaths db))) as Hput.
    { eexists. split; [done|]. cbn [data]. intros k val.
      rewrite lookup_insert_Some. intros [[<- <-]|[_ Hval]]; [by eexists|].
      by apply Hinv. }
    unfold Put. destruct (negb _); [by apply Hframe|].
    destruct (Get v db) as [[meta|] [err|]]; [|by apply Hframe|..]; tx_unfold;
      rewrite Hob; cbn;
      (destruct (_ =? 0); [by apply Hframe|]);
      (destruct (_ <? _); [by apply Hframe|]);
      (destruct (_ <? _); [by apply Hframe|]); rewrite Hob; exact Hput.
  - unfold Delete. destruct (negb _); [by apply Hframe|]. tx_unfold.
    rewrite Hob. cbn. rewrite Hob. cbn. eexists. split; [done|]. cbn [data].
    intros k val [_ Hval]%lookup_delete_Some. by apply Hinv.
  - unfold AddUser. tx_unfold.
    destruct (users db) as [ub|] eqn:Hub; cbn; [|by apply Hframe].
    destruct (_ =? 0); [by apply Hframe|].
    destruct (_ <? _); [by apply Hframe|].
    destruct (_ <? _); [by apply Hframe|]. rewrite Hub. by apply Hframe.
  - unfold DeleteUser. tx_unfold.
    destruct (users db) as [ub|] eqn:Hub; cbn; [|by apply Hframe].
    rewrite Hub. by apply Hframe.
  - pose proof (apply_op_users_objects (OpLockAdd filepath owner now) db) as [_ H].
    cbn [apply_op] in H. destruct (LockAdd filepath owner now db).
    by apply Hframe.
  - pose proof (apply_op_users_objects (OpLockDelete id owner force) db) as [_ H].
    cbn [apply_op] in H. destruct (LockDelete id owner force db).
    by apply Hframe.
Qed.

Lemma calls_objects_inv cs : objects_inv (calls cs NewMetaStore).
Proof.
  assert (objects_inv NewMetaStore) as Hnew.
  { exists emptyBucket. split; [done|]. intros k v. cbn [emptyBucket data].
    by rewrite lookup_empty. }
  revert Hnew. generalize NewMetaStore.
  induction cs as [|c cs IH]; intros db Hdb; [done|].
  cbn [calls]. by apply IH, call_objects_inv.
Qed.

Lemma objects_inv_well_formed db : objects_inv db → objects_well_formed db.
Proof.
  intros (ob & Hob & Hinv). exists ob. split; [done|]. intros k v Hv.
  destruct (Hinv k v Hv) as [size ->]. by eexists.
Qed.

(** X23. Whatever calls are made on a new store, every pair of the
    object bucket stays a record as [Put] writes it, stored under its
    own oid: a [Get] that returns a record returns the one stored for
    the oid asked for, with that oid and with [Existing = false], and
    every stored value decodes. *)
Theorem calls_keep_objects_inv cs :
  objects_inv (calls cs NewMetaStore) ∧
  objects_well_formed (calls cs NewMetaStore) ∧
  ∀ v meta,
    Get v (calls cs NewMetaStore) = (Some meta, None) →
    Oid meta = vOid v ∧ Existing meta = false ∧
    stored_object (calls cs NewMetaStore) (vOid v) = Some (gob_encode meta).
Proof.
  pose proof (calls_objects_inv cs) as Hinv.
  split; [done|]. split; [by apply objects_inv_well_formed|].
  destruct Hinv as (ob & Hob & Hinv).
  intros v meta. unfold Get, UnsafeGet, stored_object.
  destruct (negb _); [done|]. tx_unfold. rewrite Hob. cbn. rewrite Hob.
  destruct (data ob !! vOid v) as [val|] eqn:Hval; [|done].
  destruct (Hinv _ _ Hval) as [size ->]. cbn [string_of default id].
  rewrite len_bytes_encode, gob_round_trip. by intros [= <-].
Qed.

End Properties.

(** * The helpers of the lock handlers *)

Section Handlers.
Context {json : GoJson}.

Lemma string_app_assoc (s1 s2 s3 : string) :
  (s1 +:+ s2) +:+ s3 = s1 +:+ (s2 +:+ s3).
Proof.
  induction s1 as [|c s1 IH]; [done|].
  change (String c ((s1 +:+ s2) +:+ s3) = String c (s1 +:+ s2 +:+ s3)).
  by rewrite IH.
Qed.

Lemma string_app_nil_r (s : string) : s +:+ EmptyString = s.
Proof.
  induction s as [|c s IH]; [done|].
  change (String c (s +:+ EmptyString) = String c s). by rewrite IH.
Qed.

Lemma buildLocksListJSON_loop ls msg :
  (let '(msg, sep) :=
     fold_left (λ '(msg, sep) l, (msg +:+ buildLockInfoResponse l +:+ sep, ","))
       ls (msg, ",") in
   msg +:+ "]")
  = msg +:+ foldr (λ l rest, buildLockInfoResponse l +:+ "," +:+ rest) "]" ls.
Proof.
  revert msg. induction ls as [|l ls IH]; intros msg; [done|].
  cbn [fold_left foldr]. rewrite IH. by rewrite !string_app_assoc.
Qed.

(** X19. The list that [buildLocksListJSON] writes: brackets around
    nothing for no lock; for one lock or more, the first lock directly
    followed by the others, each of which is followed by a comma. So a
    list of one lock is that lock between brackets, and in a longer
    list no comma stands between the first two locks and one follows
    the last. *)
Theorem buildLocksListJSON_shape l ls :
  buildLocksListJSON [] = "[]" ∧
  buildLocksListJSON [l] = "[" +:+ buildLockInfoResponse l +:+ "]" ∧
  buildLocksListJSON (l :: ls)
  = "[" +:+ buildLockInfoResponse l +:+
    foldr (λ l rest, buildLockInfoResponse l +:+ "," +:+ rest) "]" ls.
Proof.
  assert (∀ ls, buildLocksListJSON (l :: ls)
    = "[" +:+ buildLockInfoResponse l +:+
      foldr (λ l rest, buildLockInfoResponse l +:+ "," +:+ rest) "]" ls) as Hcons.
  { intros ls'. unfold buildLocksListJSON. cbn [fold_left].
    rewrite buildLocksListJSON_loop, string_app_nil_r.
    by rewrite !string_app_assoc. }
  split; [done|]. split; [apply (Hcons [])|apply Hcons].
Qed.

Lemma ours_theirs_loop user locks ours theirs :
  fold_left (λ '(ours, theirs) l,
               if bool_decide (Owner l = user)
               then (ours ++ [l], theirs)
               else (ours, theirs ++ [l]))
    locks (ours, theirs)
  = (ours ++ filter (λ l, Owner l = user) locks,
     theirs ++ filter (λ l, Owner l ≠ user) locks).
Proof.
  revert ours theirs. induction locks as [|l locks IH]; intros ours theirs.
  - by rewrite !app_nil_r.
  - cbn [fold_left]. case_bool_decide as Howner; rewrite IH.
    + rewrite filter_cons_True, filter_cons_False by tauto.
      by rewrite <- app_assoc.
    + rewrite filter_cons_False, filter_cons_True by done.
      by rewrite <- app_assoc.
Qed.

(** X20. [verifyLocksHandler] puts every lock of the page it got from
    [LockList] into one of its two lists: [ours] holds the locks
    owned by the user and [theirs] the others, each in the order of
    the page. *)
Theorem ours_theirs_partition user locks :
  ours_theirs user locks
  = (filter (λ l, Owner l = user) locks, filter (λ l, Owner l ≠ user) locks).
Proof. apply (ours_theirs_loop user locks [] []). Qed.

End Handlers.

(** ** Ids and cursors in hexadecimal *)

Lemma digit_value_digit d : 0 ≤ d < 16 → digit_value (digit d) = Some d.
Proof.
  intros Hd.
  assert (∃ n, d = Z.of_nat n ∧ (n < 16)%nat) as (n & -> & Hn).
  { exists (Z.to_nat d). lia. }
  do 16 (destruct n as [|n]; [by vm_compute|]). lia.
Qed.

Lemma ParseUint_fmt_x_loop fuel : ∀ u buf,
  0 ≤ u < 16 ^ Z.of_nat fuel → u < two64 →
  ParseUint_loop (fmt_x_loop fuel u buf) 0 = ParseUint_loop buf u.
Proof.
  assert (cutoff = 2 ^ 60) as Hcutoff by done.
  assert (two64 = 2 ^ 64) as Htwo64 by done.
  induction fuel as [|fuel IH]; intros u buf Hu Hfits.
  { simpl in *. by replace u with 0 by lia. }
  cbn [fmt_x_loop]. destruct (Z.leb_spec 16 u) as [Hbig|Hsmall].
  - rewrite IH.
    2: { rewrite Z.shiftr_div_pow2 by lia.
         rewrite Nat2Z.inj_succ, Z.pow_succ_r in Hu by lia.
         split; [apply Z.div_pos; lia|].
         apply Z.div_lt_upper_bound; lia. }
    2: { rewrite Z.shiftr_div_pow2 by lia.
         apply Z.div_lt_upper_bound; lia. }
    cbn [ParseUint_loop].
    change 15 with (Z.ones 4). rewrite Z.land_ones, Z.shiftr_div_pow2 by lia.
    rewrite digit_value_digit by (apply Z.mod_pos_bound; lia).
    assert (u / 2 ^ 4 < 2 ^ 60) by (apply Z.div_lt_upper_bound; lia).
    rewrite (proj2 (Z.leb_gt _ _)) by lia.
    replace (u / 2 ^ 4 * 16 + u mod 2 ^ 4) with u
      by (change (2 ^ 4) with 16; rewrite (Z.div_mod u 16) at 1; lia).
    by rewrite (proj2 (Z.leb_gt _ _)) by lia.
  - cbn [ParseUint_loop]. rewrite digit_value_digit by lia.
    rewrite (proj2 (Z.leb_gt _ _)) by lia. cbn [Z.mul Z.add].
    by rewrite (proj2 (Z.leb_gt _ _)) by lia.
Qed.

Lemma fmt_x_loop_nonempty fuel u buf :
  buf ≠ EmptyString ∨ fuel ≠ 0%nat → fmt_x_loop fuel u buf ≠ EmptyString.
Proof.
  revert u buf. induction fuel as [|fuel IH]; intros u buf Hne.
  - by destruct Hne.
  - cbn [fmt_x_loop]. destruct (16 <=? u); [|done]. apply IH. by left.
Qed.

(** X21. The hexadecimal form in which the handlers write an id or a
    cursor is read back as the same number: what the verb [%x]
    prints for a [uint64], as in the [id] of a lock and in
    [next_cursor], [strconv.ParseUint] with base 16 and 64 bits, as
    called on the [id] and [cursor] of a request, returns without
    error. *)
Theorem ParseUint_fmt_x v :
  0 ≤ v < two64 → strconv_ParseUint (fmt_x v) = Some v.
Proof.
  intros Hv. unfold strconv_ParseUint, fmt_x.
  rewrite bool_decide_eq_false_2.
  - rewrite ParseUint_fmt_x_loop; [done| |lia].
    change (16 ^ Z.of_nat 16) with two64. lia.
  - apply fmt_x_loop_nonempty. by right.
Qed.

(** * Examples *)

(** ** The example codec is a codec *)

Lemma get_string_put s rest : get_string (put_string s rest) = Some (s, rest).
Proof. induction s as [|c s IH]; simpl; [done|by rewrite IH]. Qed.

Lemma get_pos_put p rest : get_pos (put_pos p rest) = Some (p, rest).
Proof.
  revert rest. induction p as [q IH|q IH|]; intros rest; simpl;
    [by rewrite IH..|done].
Qed.

Lemma get_Z_put z rest : get_Z (put_Z z rest) = Some (z, rest).
Proof. destruct z; simpl; [done|by rewrite get_pos_put..]. Qed.

Lemma wire_lock_laws : @GobLaws MetaLock wire_lock.
Proof.
  split.
  - intros [id p o t]. cbn. by rewrite get_Z_put, !get_string_put.
  - intros [[|q|q] p o t]; done.
Qed.

Lemma wire_object_laws : @GobLaws MetaObject wire_object.
Proof.
  split.
  - intros [oid size []]; cbn; by rewrite get_string_put, get_Z_put.
  - intros [[] size e]; done.
Qed.

Lemma put_pos_length p rest :
  Z.of_nat (String.length (put_pos p rest))
  = Z.log2 (Z.pos p) + 1 + Z.of_nat (String.length rest).
Proof.
  induction p as [q IH|q IH|]; cbn [put_pos String.length].
  - rewrite Nat2Z.inj_succ, IH, Pos2Z.inj_xI, Z.log2_succ_double; lia.
  - rewrite Nat2Z.inj_succ, IH, Pos2Z.inj_xO, Z.log2_double; lia.
  - simpl Z.log2. lia.
Qed.

(** The record of a lock with a 64-bit id and short fields fits a value
    of the engine. *)
Lemma wire_lock_fits i p o t :
  0 ≤ i < two64 →
  (String.length (put_string p (put_string o (put_string t EmptyString)))
   ≤ 1000)%nat →
  len (gob_encode (Gob:=wire_lock) (mkMetaLock i p o t)) ≤ MaxValueSize.
Proof.
  intros Hi Hrest. unfold len, MaxValueSize.
  cbn [gob_encode wire_lock ID Path Owner LockedAt].
  set (rest := put_string p _) in *. clearbody rest.
  destruct i as [|q|q]; cbn [put_Z String.length]; [lia| |lia].
  rewrite Nat2Z.inj_succ, put_pos_length.
  assert (Z.log2 (Z.pos q) < 64); [|lia].
  apply Z.log2_lt_pow2; [lia|]. change (2 ^ 64) with two64. lia.
Qed.

(** ** The lock calls of the repository's test, run on the model *)

#[local] Existing Instances exampleLib wire_lock wire_object.
#[local] Existing Instances wire_lock_laws wire_object_laws.

Lemma two_locks_well_formed : locks_well_formed two_locks.
Proof. apply reachable_well_formed. Qed.

Example LockList_empty_store :
  LockList EmptyString 0 100 NewMetaStore = ([], 0, false, None).
Proof. vm_compute. reflexivity. Qed.

Example LockList_all :
  LockList EmptyString 0 100 two_locks
  = ([mkMetaLock 1 "/a/x" "alice" "t1"; mkMetaLock 2 "/b/y" "bob" "t2"],
     0, false, None).
Proof. vm_compute. reflexivity. Qed.

Example LockList_first_page :
  LockList EmptyString 0 1 two_locks
  = ([mkMetaLock 1 "/a/x" "alice" "t1"], 2, true, None).
Proof. vm_compute. reflexivity. Qed.

Example LockList_second_page :
  LockList EmptyString 2 1 two_locks
  = ([mkMetaLock 2 "/b/y" "bob" "t2"], 2, false, None).
Proof. vm_compute. reflexivity. Qed.

Example LockList_glob :
  LockList "/a/*" 0 100 two_locks
  = ([mkMetaLock 1 "/a/x" "alice" "t1"], 0, false, None).
Proof. vm_compute. reflexivity. Qed.

Example LockDelete_wrong_owner :
  LockDelete 2 "wrong" false two_locks = ((None, Some errUnauthorized), two_locks).
Proof. vm_compute. reflexivity. Qed.

Example LockDelete_forced :
  (LockDelete 1 "wrong" true two_locks).1
  = (Some (mkMetaLock 1 "/a/x" "alice" "t1"), None)
  ∧ LockList EmptyString 0 100 (LockDelete 1 "wrong" true two_locks).2
    = ([mkMetaLock 2 "/b/y" "bob" "t2"], 0, false, None).
Proof. split; vm_compute; reflexivity. Qed.

(** The second [LockAdd] on a path returns the zero lock next to the
    error, where the caller expects the lock that holds the path. *)
Example LockAdd_conflict_reports_zero_lock :
  LockAdd "/f" "alice" "t1" NewMetaStore
  = ((Some (mkMetaLock 1 "/f" "alice" "t1"), None),
     (LockAdd "/f" "alice" "t1" NewMetaStore).2)
  ∧ LockAdd "/f" "bob" "t2" (LockAdd "/f" "alice" "t1" NewMetaStore).2
    = ((Some zeroMetaLock, Some errDuplicateObject),
       (LockAdd "/f" "alice" "t1" NewMetaStore).2).
Proof. split; vm_compute; reflexivity. Qed.

(** ** The theorems at concrete inputs *)

Lemma itob_order_embedding_witness : 1 < 2 ↔ bytes_lt (itob 1) (itob 2).
Proof. apply (itob_order_embedding 1 2); unfold two64; lia. Defined.

Lemma LockList_page_witness :
  ∃ l locks next pending,
    listed_from two_locks 0 l ∧
    LockList "/a/*" 0 100 two_locks = (locks, next, pending, None) ∧
    locks = take (Z.to_nat (clamp_limit 100)) (filter (accepted "/a/*") l) ∧
    length locks
    = Nat.min (Z.to_nat (clamp_limit 100)) (length (filter (accepted "/a/*") l)).
Proof.
  apply (LockList_page "/a/*" 0 100 two_locks);
    [exact two_locks_well_formed|unfold two64; lia].
Defined.

Lemma LockList_hasMore_witness :
  ∃ l locks next pending,
    listed_from two_locks 0 l ∧
    LockList EmptyString 0 1 two_locks = (locks, next, pending, None) ∧
    locks = take (Z.to_nat (clamp_limit 1)) (filter (accepted EmptyString) l) ∧
    (pending = true ↔
       ∃ visited rest, l = visited ++ rest ∧ rest ≠ [] ∧
         Z.of_nat (length (filter (accepted EmptyString) visited))
         = clamp_limit 1) ∧
    (pending = true →
       ∃ visited rest meta, l = visited ++ rest ∧ rest ≠ [] ∧
         filter (accepted EmptyString) visited = locks ∧
         Z.of_nat (length locks) = clamp_limit 1 ∧
         last locks = Some meta ∧ next = ID meta + 1) ∧
    (pending = false → next = 0).
Proof.
  apply (LockList_hasMore EmptyString 0 1 two_locks);
    [exact two_locks_well_formed|unfold two64; lia].
Defined.

Lemma LockList_malformed_pattern_witness :
  LockList "[" 0 100 two_locks = ([], 0, false, None).
Proof.
  apply (LockList_malformed_pattern "[" 0 100 two_locks);
    [exact two_locks_well_formed|discriminate|reflexivity].
Defined.

Lemma LockDelete_outcomes_witness :
  ∃ lb pb, locks two_locks = Some lb ∧ lockPaths two_locks = Some pb ∧
    LockDelete 2 "bob" false two_locks
    = ((Some (mkMetaLock 2 "/b/y" "bob" "t2"), None),
       mkDB (users two_locks) (objects two_locks)
         (Some (mkBucket (delete (itob 2) (data lb)) (sequence lb)))
         (Some (mkBucket (delete "/b/y" (data pb)) (sequence pb)))).
Proof.
  apply (LockDelete_outcomes 2 "bob" false two_locks).
  - exact two_locks_well_formed.
  - vm_compute. reflexivity.
  - right. reflexivity.
Defined.

Lemma LockAdd_twice_witness :
  LockAdd "/f" "bob" "t2" (LockAdd "/f" "alice" "t1" NewMetaStore).2
  = ((Some zeroMetaLock, Some errDuplicateObject),
     (LockAdd "/f" "alice" "t1" NewMetaStore).2)
  ∧ in_locks (LockAdd "/f" "alice" "t1" NewMetaStore).2
      (mkMetaLock 1 "/f" "alice" "t1")
  ∧ in_lockPaths (LockAdd "/f" "alice" "t1" NewMetaStore).2
      (mkMetaLock 1 "/f" "alice" "t1")
  ∧ mkMetaLock 1 "/f" "alice" "t1" ≠ zeroMetaLock.
Proof.
  apply (LockAdd_twice "/f" "alice" "t1" "bob" "t2" NewMetaStore).
  vm_compute. reflexivity.
Defined.

Lemma locks_in_sync_until_wrap_witness :
  locks_in_sync
    (run [OpLockAdd "/a/x" "alice" "t1"; OpLockAdd "/b/y" "bob" "t2";
          OpLockDelete 1 "alice" false] NewMetaStore).2.
Proof. apply locks_in_sync_until_wrap. vm_compute. reflexivity. Defined.

Lemma lock_ids_increase_until_wrap_witness :
  StronglySorted Z.lt
    (assigned_ids
       (run [OpLockAdd "/a/x" "alice" "t1"; OpLockDelete 1 "alice" false;
             OpLockAdd "/a/x" "bob" "t2"] NewMetaStore).1)
  ∧ NoDup
      (assigned_ids
         (run [OpLockAdd "/a/x" "alice" "t1"; OpLockDelete 1 "alice" false;
               OpLockAdd "/a/x" "bob" "t2"] NewMetaStore).1).
Proof. apply lock_ids_increase_until_wrap. vm_compute. reflexivity. Defined.

Example lock_ids_after_delete :
  assigned_ids
    (run [OpLockAdd "/a/x" "alice" "t1"; OpLockDelete 1 "alice" false;
          OpLockAdd "/a/x" "bob" "t2"] NewMetaStore).1 = [1; 2].
Proof. vm_compute. reflexivity. Qed.

Lemma authenticate_cases_witness :
  authenticate "Basic Ym9iOnB3" (AddUser "bob" "pw" NewMetaStore).2 = true ↔
  ∃ secret, stored_secret (AddUser "bob" "pw" NewMetaStore).2 "bob" = Some secret
            ∧ secret ≠ EmptyString ∧ secret = "pw".
Proof.
  apply (authenticate_cases "Basic Ym9iOnB3" (AddUser "bob" "pw" NewMetaStore).2)
    with (payload := "Ym9iOnB3").
  - reflexivity.
  - reflexivity.
  - vm_compute. reflexivity.
  - compute_done.
  - intros [Hname _]. discriminate Hname.
Defined.

Example authenticate_stored_user :
  authenticate "Basic Ym9iOnB3" (AddUser "bob" "pw" NewMetaStore).2 = true
  ∧ authenticate "Basic Ym9iOnB4" (AddUser "bob" "pw" NewMetaStore).2 = false
  ∧ authenticate "Basic YWRtaW46c2VjcmV0" NewMetaStore = true
  ∧ authenticate "Bearer Ym9iOnB3" (AddUser "bob" "pw" NewMetaStore).2 = false
  ∧ authenticate "Basic ???" (AddUser "bob" "pw" NewMetaStore).2 = false.
Proof. repeat split; vm_compute; reflexivity. Qed.

Lemma Put_then_Get_witness :
  let v := mkRequestVars "oid1" 42 "Basic YWRtaW46c2VjcmV0" in
  let meta := mkMetaObject "oid1" 42 false in
  let db' := mkDB (users NewMetaStore)
               (Some (mkBucket (<["oid1" := gob_encode meta]> ∅) 0))
               (locks NewMetaStore) (lockPaths NewMetaStore) in
  Put v NewMetaStore = ((Some meta, None), db') ∧ Get v db' = (Some meta, None).
Proof.
  intros v meta db'.
  apply (Put_then_Get v NewMetaStore emptyBucket).
  - vm_compute. reflexivity.
  - reflexivity.
  - reflexivity.
  - discriminate.
  - vm_compute. discriminate.
  - vm_compute. discriminate.
Defined.

Example Put_twice :
  let v := mkRequestVars "oid1" 42 "Basic YWRtaW46c2VjcmV0" in
  (Put (mkRequestVars "oid1" 7 "Basic YWRtaW46c2VjcmV0") (Put v NewMetaStore).2)
  = ((Some (mkMetaObject "oid1" 42 true), None), (Put v NewMetaStore).2).
Proof. vm_compute. reflexivity. Qed.

Example Get_without_auth :
  Get (mkRequestVars "oid1" 0 "Basic Ym9iOnB4") NewMetaStore
  = (None, Some authError)
  ∧ (Put (mkRequestVars "oid1" 42 "Basic Ym9iOnB4") NewMetaStore)
    = ((None, Some authError), NewMetaStore).
Proof. split; vm_compute; reflexivity. Qed.

(** ** Where the description and the code part ways *)

(** C6, as stated, fails: for the empty oid, absent from the store and
    with an accepted credential, [Put] stores nothing and returns the
    engine's [ErrKeyRequired]. *)
Lemma Put_empty_oid_rejected :
  let v := mkRequestVars EmptyString 42 "Basic YWRtaW46c2VjcmV0" in
  authenticate (vAuthorization v) NewMetaStore = true
  ∧ stored_object NewMetaStore (vOid v) = None
  ∧ Put v NewMetaStore = ((None, Some ErrKeyRequired), NewMetaStore).
Proof. repeat split; vm_compute; reflexivity. Qed.

(** C7, as stated, fails: for a user stored with an empty secret, the
    credential [bob:] carries a password equal to the stored secret and
    is not the administrator's, yet [authenticate] returns false. *)
Lemma authenticate_empty_secret_rejected :
  base64_DecodeString "Ym9iOg==" = Some "bob:"
  ∧ stored_secret bob_without_secret "bob" = Some EmptyString
  ∧ ¬ (authenticate "Basic Ym9iOg==" bob_without_secret = true
       ↔ stored_secret bob_without_secret "bob" = Some EmptyString).
Proof.
  split; [vm_compute; reflexivity|]. split; [vm_compute; reflexivity|].
  intros [_ Hback].
  assert (authenticate "Basic Ym9iOg==" bob_without_secret = false) as Hfalse
    by (vm_compute; reflexivity).
  rewrite Hback in Hfalse; [discriminate|]. vm_compute. reflexivity.
Qed.

(** *** The id sequence after 2^64 locks *)

Lemma churn_rounds_Z : Z.of_nat churn_rounds = two64 - 2.
Proof. unfold churn_rounds. apply Z2Nat.id. unfold two64. lia. Qed.

Global Opaque churn_rounds.

Lemma wrap_step1 :
  LockAdd "/a" "alice" "t" NewMetaStore = ((Some lockA, None), wrap_store1).
Proof. vm_compute. reflexivity. Qed.

Lemma wrap_step2 : (run (churn 1 churn_rounds) wrap_store1).2 = wrap_store2.
Proof.
  unfold wrap_store1, wrap_store2, wrap_store, emptyBucket.
  rewrite run_churn.
  - rewrite churn_rounds_Z. reflexivity.
  - lia.
  - rewrite churn_rounds_Z. unfold two64. lia.
  - reflexivity.
  - intros i Hi. rewrite churn_rounds_Z in Hi. apply lookup_insert_None.
    split; [apply lookup_empty|]. intros Heq.
    apply itob_inj in Heq; unfold two64 in *; lia.
  - intros i Hi. apply wire_lock_fits; [done|]. vm_compute. lia.
Qed.

Lemma wrap_step3 :
  LockAdd "/b" "bob" "t" wrap_store2 = ((Some lockB, None), wrap_store3).
Proof. vm_compute. reflexivity. Qed.

Lemma wrap_step4 :
  LockAdd "/c" "carol" "t" wrap_store3 = ((Some lockC, None), wrap_store4).
Proof. vm_compute. reflexivity. Qed.

(** The calls of [wrap_ops] create [lockA] with id 1, go through the
    rounds, and create [lockB] with id 0 and [lockC] with id 1 again. *)
Lemma run_wrap_ops :
  ∃ log,
    run wrap_ops NewMetaStore
    = ((OpLockAdd "/a" "alice" "t", (Some lockA, None)) :: log
         ++ [(OpLockAdd "/b" "bob" "t", (Some lockB, None));
             (OpLockAdd "/c" "carol" "t", (Some lockC, None))],
       wrap_store4).
Proof.
  exists (run (churn 1 churn_rounds) wrap_store1).1.
  unfold wrap_ops. cbn [run apply_op]. rewrite wrap_step1, run_app, wrap_step2.
  cbn [run apply_op]. rewrite wrap_step3, wrap_step4. reflexivity.
Qed.

(** C1, as stated, fails: once the 64-bit sequence has wrapped, a new
    lock takes the id of a lock still held and replaces it in the
    id-indexed bucket; the older lock stays in the path-indexed bucket
    only. *)
Lemma locks_out_of_sync_after_wrap :
  in_lockPaths (run wrap_ops NewMetaStore).2 lockA
  ∧ ¬ in_locks (run wrap_ops NewMetaStore).2 lockA
  ∧ ¬ locks_in_sync (run wrap_ops NewMetaStore).2.
Proof.
  destruct run_wrap_ops as [log ->]. cbn [snd].
  assert (in_lockPaths wrap_store4 lockA) as Hpath.
  { eexists. split; [reflexivity|]. vm_compute. reflexivity. }
  assert (¬ in_locks wrap_store4 lockA) as Hid.
  { intros (lb & Hlb & Hin). injection Hlb as <-. vm_compute in Hin.
    discriminate Hin. }
  split_and!; [done..|]. intros Hsync. apply Hid. by apply (sync_iff _ Hsync).
Qed.

(** C3, as stated, fails: once the 64-bit sequence has wrapped, the
    next lock gets id 0, below the ids assigned before it, and the one
    after gets id 1, assigned before. *)
Lemma lock_id_reused_after_wrap :
  ¬ StronglySorted Z.lt (assigned_ids (run wrap_ops NewMetaStore).1)
  ∧ ¬ NoDup (assigned_ids (run wrap_ops NewMetaStore).1).
Proof.
  destruct run_wrap_ops as [log ->]. cbn [fst].
  assert (assigned_ids
            ((OpLockAdd "/a" "alice" "t", (Some lockA, None)) :: log
               ++ [(OpLockAdd "/b" "bob" "t", (Some lockB, None));
                   (OpLockAdd "/c" "carol" "t", (Some lockC, None))])
          = 1 :: assigned_ids log ++ [0; 1]) as ->.
  { unfold assigned_ids. cbn [omap list_omap assigned_id lockA ID].
    by rewrite omap_app. }
  assert (1 ∈ assigned_ids log ++ [0; 1]) as Hin.
  { apply elem_of_app. right. apply elem_of_cons. right. apply list_elem_of_singleton.
    reflexivity. }
  split.
  - intros Hsorted. apply StronglySorted_cons in Hsorted as [Hlt _].
    rewrite Forall_forall in Hlt. specialize (Hlt 1 Hin). lia.
  - intros Hnodup. apply NoDup_cons in Hnodup as [Hnotin _]. done.
Qed.

(** ** The further properties at work *)

Example Users_after_AddUser :
  Users (calls [CallAddUser "carol" "x"; CallAddUser "bob" "pw";
                CallAddUser "dave" "y"; CallDeleteUser "carol"] NewMetaStore)
  = ([mkMetaUser "bob"; mkMetaUser "dave"], None).
Proof. vm_compute. reflexivity. Qed.

Example Objects_two :
  Objects two_objects
  = ([mkMetaObject "oid1" 42 false; mkMetaObject "oid2" 7 false], None).
Proof. vm_compute. reflexivity. Qed.

Example Objects_damaged :
  Objects damaged_objects = ([mkMetaObject "a" 1 false], None).
Proof. vm_compute. reflexivity. Qed.

Example Delete_without_auth :
  Delete (mkRequestVars "oid1" 0 "Basic Ym9iOnB4") two_objects
  = (Some authError, two_objects).
Proof. vm_compute. reflexivity. Qed.

Example fmt_x_values :
  fmt_x 0 = "0" ∧ fmt_x 255 = "ff" ∧ fmt_x 4096 = "1000"
  ∧ fmt_x 18446744073709551615 = "ffffffffffffffff".
Proof. repeat split. Qed.

Example ParseUint_values :
  strconv_ParseUint "ff" = Some 255
  ∧ strconv_ParseUint "FF" = Some 255
  ∧ strconv_ParseUint "ffffffffffffffff" = Some 18446744073709551615
  ∧ strconv_ParseUint "10000000000000000" = None
  ∧ strconv_ParseUint EmptyString = None
  ∧ strconv_ParseUint "0x1f" = None
  ∧ strconv_ParseUint "-1" = None.
Proof. repeat split. Qed.

Example ours_theirs_two_locks :
  ours_theirs "bob"
    [mkMetaLock 1 "/a/x" "alice" "t1"; mkMetaLock 2 "/b/y" "bob" "t2"]
  = ([mkMetaLock 2 "/b/y" "bob" "t2"], [mkMetaLock 1 "/a/x" "alice" "t1"]).
Proof. vm_compute. reflexivity. Qed.

Lemma AddUser_then_authenticate_witness :
  ∃ db', AddUser "bob" "pw" NewMetaStore = (None, db') ∧
    stored_secret db' "bob" = Some "pw" ∧
    (∀ other, other ≠ "bob" →
       stored_secret db' other = stored_secret NewMetaStore other) ∧
    authenticate "Basic Ym9iOnB3" db' = true.
Proof.
  destruct (AddUser_then_authenticate "bob" "pw" NewMetaStore emptyBucket)
    as (db' & Hadd & Hsecret & Hothers & Hauth).
  - reflexivity.
  - discriminate.
  - vm_compute. discriminate.
  - vm_compute. discriminate.
  - exists db'. split; [exact Hadd|]. split; [exact Hsecret|].
    split; [exact Hothers|]. apply (Hauth "Ym9iOnB3").
    + reflexivity.
    + compute_done.
    + discriminate.
    + vm_compute. reflexivity.
Defined.

Lemma DeleteUser_then_authenticate_witness :
  ∃ db', DeleteUser "bob" with_bob = (None, db') ∧
    stored_secret db' "bob" = None ∧
    (∀ other, other ≠ "bob" →
       stored_secret db' other = stored_secret with_bob other) ∧
    (stored_secret with_bob "bob" = None → db' = with_bob) ∧
    authenticate "Basic Ym9iOnB3" db' = false.
Proof.
  destruct (DeleteUser_then_authenticate "bob" with_bob
              (mkBucket (<["bob" := "pw"]> ∅) 0))
    as (db' & Hdel & Hsecret & Hothers & Habsent & Hauth).
  - vm_compute. reflexivity.
  - exists db'. split; [exact Hdel|]. split; [exact Hsecret|].
    split; [exact Hothers|]. split; [exact Habsent|].
    apply (Hauth "Ym9iOnB3" "pw").
    + reflexivity.
    + compute_done.
    + vm_compute. reflexivity.
    + intros [Hname _]. discriminate Hname.
Defined.

(** The credential [bob:pw] before [AddUser], after it, and after
    [DeleteUser]; and a name with a colon, which [AddUser] stores but
    [authenticate] never looks up: [a:b:c] is user [a] with password
    [b:c]. *)
Example credential_of_bob :
  authenticate "Basic Ym9iOnB3" NewMetaStore = false
  ∧ authenticate "Basic Ym9iOnB3" with_bob = true
  ∧ authenticate "Basic Ym9iOnB3" (DeleteUser "bob" with_bob).2 = false.
Proof. repeat split; vm_compute; reflexivity. Qed.

Example name_with_colon :
  b64_decode "YTpiOmM=" = Some "a:b:c"
  ∧ AddUser "a:b" "c" NewMetaStore
    = (None, mkDB (Some (mkBucket (<["a:b" := "c"]> ∅) 0)) (Some emptyBucket)
               (Some emptyBucket) (Some emptyBucket))
  ∧ authenticate "Basic YTpiOmM=" (AddUser "a:b" "c" NewMetaStore).2 = false
  ∧ authenticate "Basic YTpiOmM=" (AddUser "a" "b:c" NewMetaStore).2 = true
  ∧ authenticate "Basic YTpiOmM="
      (DeleteUser "a:b" (AddUser "a" "b:c" NewMetaStore).2).2 = true.
Proof. repeat split; vm_compute; reflexivity. Qed.

Lemma Users_lists_stored_witness :
  ∃ l, Users with_bob = (l, None) ∧
    StronglySorted (λ a b, bytes_lt (Name a) (Name b)) l ∧
    ∀ name, mkMetaUser name ∈ l ↔ is_Some (stored_secret with_bob name).
Proof.
  eapply (Users_lists_stored with_bob). vm_compute. reflexivity.
Defined.

Lemma Objects_lists_stored_witness :
  ∃ ob l, objects two_objects = Some ob ∧ Objects two_objects = (l, None) ∧
    Forall2 (λ kv meta, kv.2 = gob_encode meta) (entries ob) l ∧
    length l = size (data ob) ∧
    ∀ meta, meta ∈ l ↔
      ∃ oid, stored_object two_objects oid = Some (gob_encode meta).
Proof.
  apply (Objects_lists_stored two_objects).
  apply objects_inv_well_formed, calls_objects_inv.
Defined.

Lemma Objects_stops_silently_witness :
  (Objects damaged_objects).2 = None ∧
  ∀ before k v after l,
    entries (mkBucket
       (<["a" := gob_encode (mkMetaObject "a" 1 false)]>
          (<["b" := "?"]>
             (<["c" := gob_encode (mkMetaObject "c" 3 false)]> ∅))) 0)
    = before ++ (k, v) :: after →
    Forall2 (λ kv (meta : MetaObject), gob_decode kv.2 = Some meta) before l →
    gob_decode (A:=MetaObject) v = None →
    Objects damaged_objects = (l, None).
Proof.
  apply (Objects_stops_silently damaged_objects). reflexivity.
Defined.

Lemma Delete_then_Get_witness :
  let v := mkRequestVars "oid1" 0 "Basic YWRtaW46c2VjcmV0" in
  ∃ db', Delete v two_objects = (None, db') ∧
    Get v db' = (None, Some errObjectNotFound) ∧
    (∀ oid, oid ≠ "oid1" → stored_object db' oid = stored_object two_objects oid) ∧
    (stored_object two_objects "oid1" = None → db' = two_objects).
Proof.
  intros v. eapply (Delete_then_Get v two_objects).
  - vm_compute. reflexivity.
  - vm_compute. reflexivity.
Defined.

Lemma Put_then_Delete_witness :
  let v := mkRequestVars "oid1" 42 "Basic YWRtaW46c2VjcmV0" in
  ∃ db', Put v NewMetaStore = ((Some (mkMetaObject "oid1" 42 false), None), db') ∧
    stored_object db' "oid1" = Some (gob_encode (mkMetaObject "oid1" 42 false)) ∧
    Delete v db' = (None, NewMetaStore).
Proof.
  intros v. apply (Put_then_Delete v NewMetaStore emptyBucket).
  - vm_compute. reflexivity.
  - reflexivity.
  - reflexivity.
  - discriminate.
  - vm_compute. discriminate.
  - vm_compute. discriminate.
Defined.

Lemma object_and_user_calls_leave_locks_witness :
  locks (call (CallAddUser "bob" "pw") two_locks).2 = locks two_locks ∧
  lockPaths (call (CallAddUser "bob" "pw") two_locks).2 = lockPaths two_locks ∧
  ∀ matchpath cursor limit,
    LockList matchpath cursor limit (call (CallAddUser "bob" "pw") two_locks).2
    = LockList matchpath cursor limit two_locks.
Proof.
  apply (object_and_user_calls_leave_locks (CallAddUser "bob" "pw") two_locks).
  exact I.
Defined.

Lemma failed_call_changes_nothing_witness :
  (call (CallLockAdd "/a/x" "bob" "t3") two_locks).2 = two_locks.
Proof.
  apply (failed_call_changes_nothing (CallLockAdd "/a/x" "bob" "t3") two_locks).
  vm_compute. eexists. reflexivity.
Defined.

Lemma LockAdd_then_LockDelete_witness :
  mkMetaLock 1 "/f" "alice" "t1" = mkMetaLock (0 + 1) "/f" "alice" "t1" ∧
  LockDelete 1 "alice" false (LockAdd "/f" "alice" "t1" NewMetaStore).2
  = ((Some (mkMetaLock 1 "/f" "alice" "t1"), None),
     mkDB (users NewMetaStore) (objects NewMetaStore) (Some emptyBucket)
       (Some (mkBucket ∅ (0 + 1)))).
Proof.
  apply (LockAdd_then_LockDelete "/f" "alice" "t1" false NewMetaStore
           emptyBucket emptyBucket (mkMetaLock 1 "/f" "alice" "t1")
           (LockAdd "/f" "alice" "t1" NewMetaStore).2).
  - exact store_inv_NewMetaStore.
  - reflexivity.
  - reflexivity.
  - reflexivity.
  - vm_compute. reflexivity.
Defined.

Lemma LockDelete_frees_path_witness :
  stored_lock (LockDelete 2 "bob" false two_locks).2 2 = None ∧
  (∀ owner' force',
     LockDelete 2 owner' force' (LockDelete 2 "bob" false two_locks).2
     = ((None, Some errObjectNotFound), (LockDelete 2 "bob" false two_locks).2)) ∧
  (∀ owner' now,
     (LockAdd "/b/y" owner' now (LockDelete 2 "bob" false two_locks).2).1.2
     ≠ Some errDuplicateObject).
Proof.
  apply (LockDelete_frees_path 2 "bob" false two_locks
           (mkMetaLock 2 "/b/y" "bob" "t2")).
  vm_compute. reflexivity.
Defined.

Lemma LockAdd_rejects_bad_path_witness :
  LockAdd EmptyString "alice" "t1" NewMetaStore
  = ((None, Some ErrKeyRequired), NewMetaStore).
Proof.
  rewrite (LockAdd_rejects_bad_path EmptyString "alice" "t1" NewMetaStore
             emptyBucket emptyBucket).
  - vm_compute. reflexivity.
  - reflexivity.
  - reflexivity.
  - reflexivity.
  - left. reflexivity.
Defined.

Lemma LockList_complete_witness :
  0 = 0 ∧
  ∃ l, listed_from two_locks 0 l ∧
    [mkMetaLock 1 "/a/x" "alice" "t1"; mkMetaLock 2 "/b/y" "bob" "t2"]
    = filter (accepted EmptyString) l.
Proof.
  apply (LockList_complete EmptyString 0 100 two_locks).
  - exact two_locks_well_formed.
  - unfold two64. lia.
  - vm_compute. reflexivity.
Defined.

Lemma LockList_next_page_witness :
  ∃ l locks2 next2 pending2,
    listed_from two_locks 0 l ∧
    LockList EmptyString 2 1 two_locks = (locks2, next2, pending2, None) ∧
    [mkMetaLock 1 "/a/x" "alice" "t1"] ++ locks2
    = take (Z.to_nat (clamp_limit 1) + Z.to_nat (clamp_limit 1))
        (filter (accepted EmptyString) l) ∧
    (1 ≤ 1 → 1 ≤ 1 → 1 + 1 ≤ 100 →
     (LockList EmptyString 0 (1 + 1) two_locks).1.1.1
     = [mkMetaLock 1 "/a/x" "alice" "t1"] ++ locks2).
Proof.
  apply (LockList_next_page EmptyString 0 1 1 two_locks).
  - exact two_locks_well_formed.
  - unfold two64. lia.
  - vm_compute. reflexivity.
Defined.

Lemma ParseUint_fmt_x_witness : strconv_ParseUint (fmt_x 48879) = Some 48879.
Proof. apply (ParseUint_fmt_x 48879). unfold two64. lia. Defined.

Lemma calls_keep_locks_well_formed_witness :
  let cs := [CallLockAdd "/a/x" "alice" "t1"; CallAddUser "bob" "pw";
             CallLockAdd "/b/y" "bob" "t2"; CallLockDelete 1 "alice" false] in
  locks_well_formed (calls cs NewMetaStore) ∧
  ∀ matchpath cursor limit,
    (LockList matchpath cursor limit (calls cs NewMetaStore)).2 = None.
Proof.
  intros cs.
  apply (@calls_keep_locks_well_formed exampleLib wire_lock wire_object
           wire_lock_laws cs).
Defined.

Lemma calls_keep_objects_inv_witness :
  let cs := [CallPut (mkRequestVars "oid1" 42 "Basic YWRtaW46c2VjcmV0");
             CallPut (mkRequestVars "oid2" 7 "Basic YWRtaW46c2VjcmV0");
             CallDelete (mkRequestVars "oid1" 0 "Basic YWRtaW46c2VjcmV0")] in
  objects_inv (calls cs NewMetaStore) ∧
  objects_well_formed (calls cs NewMetaStore) ∧
  ∀ v meta,
    Get v (calls cs NewMetaStore) = (Some meta, None) →
    Oid meta = vOid v ∧ Existing meta = false ∧
    stored_object (calls cs NewMetaStore) (vOid v) = Some (gob_encode meta).
Proof.
  intros cs.
  apply (@calls_keep_objects_inv exampleLib wire_lock wire_object
           wire_object_laws cs).
Defined.
